(** * The dependency resolver of volatility.framework.configuration

    A shallow embedding of [depresolver.py]: the provider registry and its
    capability matching, the recursive tree builder, the runtime validator
    that commits one candidate per choice node, and the hierarchical
    visitor protocol over requirement trees. *)

From Stdlib Require Import ZArith.
From stdpp Require Import gmap strings list sorting.

(** ** Data model *)

(** A capability value is a single token, or a Python [list] of tokens
    (the code tests [isinstance(v, list)]). *)
Inductive CapabilityValue :=
| Single (token : string)
| Multi (tokens : list string).

#[global] Instance CapabilityValue_eq_dec : EqDecision CapabilityValue.
Proof. solve_decision. Defined.

#[global] Instance CapabilityValue_countable : Countable CapabilityValue.
Proof.
  refine (inj_countable'
            (fun v => match v with Single t => inl t | Multi l => inr l end)
            (fun s => match s with inl t => Single t | inr l => Multi l end) _).
  by intros [].
Defined.

(** A schema entry.  [constraint_interface] records whether the object is
    an instance of [interfaces.configuration.ConstraintInterface]; the
    [constraints] mapping is read for those only. *)
Record Requirement := mkRequirement {
  name : string;
  optional : bool;
  constraint_interface : bool;
  constraints : gmap string CapabilityValue
}.

#[global] Instance Requirement_eq_dec : EqDecision Requirement.
Proof. solve_decision. Defined.

#[global] Instance Requirement_countable : Countable Requirement.
Proof.
  refine (inj_countable'
            (fun r => (name r, optional r, constraint_interface r, constraints r))
            (fun t => match t with (n, o, c, m) => mkRequirement n o c m end) _).
  by intros [].
Defined.

(** A provider class: providers are classes, compared and hashed by
    identity, which the class name stands for. *)
Record Provider := mkProvider {
  provider_name : string;
  priority : Z;
  provides : gmap string CapabilityValue;
  provider_schema : list Requirement
}.

#[global] Instance Provider_eq_dec : EqDecision Provider.
Proof. solve_decision. Defined.

#[global] Instance Provider_countable : Countable Provider.
Proof.
  refine (inj_countable'
            (fun p => (provider_name p, priority p, provides p, provider_schema p))
            (fun t => match t with (n, z, m, s) => mkProvider n z m s end) _).
  by intros [].
Defined.

(** Anything with a [get_schema()]: the configurable handed to
    [build_tree], and every provider. *)
Record Configurable := mkConfigurable {
  get_schema : list Requirement
}.

Definition as_configurable (p : Provider) : Configurable :=
  mkConfigurable (provider_schema p).

(** Exceptions.  [CheckFailed] is what [validity.ValidityRoutines._check_type]
    raises on a mismatch; [Failure] stands for whatever an external
    callback raises (all subclasses of [Exception]). *)
Inductive exn :=
| DependencyError (unsatisfied : Requirement)
| RecursionError
| AttributeError (attribute : string)
| TypeError (message : string)
| CheckFailed (message : string)
| Failure (message : string).

Inductive outcome (A : Type) :=
| Return (a : A)
| Raise (e : exn).
Arguments Return {A} a.
Arguments Raise {A} e.

(** ** The registry *)

Record DependencyResolver := mkResolver {
  self_provides : gmap string (gset string);
  providers_cache : list Provider
}.

(** [sorted(l, key = key)]: a stable sort by ascending key. *)
Fixpoint insert_by {A} (key : A -> Z) (x : A) (l : list A) : list A :=
  match l with
  | [] => [x]
  | y :: l' => if decide (key x <= key y)%Z then x :: l else y :: insert_by key x l'
  end.

Definition sorted {A} (key : A -> Z) (l : list A) : list A :=
  foldr (insert_by key) [] l.

(** One pass of the inner loop of [_build_caches] over an item [(k, v)]
    of [provider.provides]. *)
Definition merge_provision (provider : Provider)
    (acc : gmap string (gset string) * gset Provider)
    (item : string * CapabilityValue) : gmap string (gset string) * gset Provider :=
  let '(self_provides, cache) := acc in
  let '(k, v) := item in
  let new_v :=
    match v with
    | Single t => default ∅ (self_provides !! k) ∪ {[ t ]}
    | Multi l => default ∅ (self_provides !! k) ∪ list_to_set l
    end in
  (<[ k := new_v ]> self_provides, cache ∪ {[ provider ]}).

(** [_build_caches(clazz)], over the enumeration
    [framework.class_subclasses(clazz)]: the capability index it leaves in
    [self.provides], and the set [cache] it returns. *)
Definition _build_caches (subclasses : list Provider)
    : gmap string (gset string) * gset Provider :=
  foldl (fun acc provider =>
           foldl (merge_provision provider) acc (map_to_list (provides provider)))
        (∅, ∅) subclasses.

(** [DependencyResolver.__init__]: [list(cache)] is [elements], in the
    set's own iteration order. *)
Definition DependencyResolver__init (subclasses : list Provider) : DependencyResolver :=
  let '(index, cache) := _build_caches subclasses in
  mkResolver index (sorted (fun x => (- priority x)%Z) (elements cache)).

(** ** Capability matching *)

Definition as_list (value : CapabilityValue) : list string :=
  match value with
  | Single t => [t]
  | Multi l => l
  end.

Definition common_provision (value1 value2 : CapabilityValue) : gset string :=
  let set1 : gset string := list_to_set (as_list value1) in
  let set2 : gset string := list_to_set (as_list value2) in
  set1 ∩ set2.

(** Python's [bool(s)] on a set. *)
Definition bool_of_set (s : gset string) : bool := negb (bool_decide (s = ∅)).

Definition satisfies (provider : Provider) (requirement : Requirement) : bool :=
  foldl (fun (satisfied : bool) '(k, v) =>
           match provides provider !! k with
           | Some pv => satisfied && bool_of_set (common_provision pv v)
           | None => satisfied
           end)
        true (map_to_list (constraints requirement)).

(** ** Requirement trees *)

#[warning="-register-all"]
Inductive RequirementTreeNode :=
| RequirementTreeReq (requirement : Requirement)
| RequirementTreeChoice (requirement : Requirement)
    (candidates : list (Provider * RequirementTreeNode))
| RequirementTreeList (children : list RequirementTreeNode).

(** An [OrderedDict] keyed by providers is an association list in
    insertion order; [od_set] is [od[k] = v], which keeps the position of
    a key that is already there. *)
Fixpoint od_set {V} (k : Provider) (v : V) (od : list (Provider * V)) : list (Provider * V) :=
  match od with
  | [] => [(k, v)]
  | (k', v') :: od' => if decide (k = k') then (k, v) :: od' else (k', v') :: od_set k v od'
  end.

(** [ValidityRoutines._check_type(value, valid_type)]: a Python argument
    is [None] when left at its default. *)
Definition _check_type {A} (value : option A) (valid_type : string) : outcome A :=
  match value with
  | Some v => Return v
  | None => Raise (CheckFailed valid_type)
  end.

Definition is_list_node (node : RequirementTreeNode) : bool :=
  match node with
  | RequirementTreeList _ => true
  | _ => false
  end.

(** The loop of [RequirementTreeChoice.__init__] over the keys of
    [candidates]; iterating [None] is a [TypeError]. *)
Fixpoint check_candidates (candidates : list (Provider * RequirementTreeNode)) : outcome unit :=
  match candidates with
  | [] => Return tt
  | (k, subtree) :: rest =>
      if is_list_node subtree then check_candidates rest
      else Raise (CheckFailed "RequirementTreeList")
  end.

Definition RequirementTreeReq__init (requirement : option Requirement) : outcome Requirement :=
  _check_type requirement "RequirementInterface".

Definition RequirementTreeChoice__init (requirement : option Requirement)
    (candidates : option (list (Provider * RequirementTreeNode)))
    : outcome RequirementTreeNode :=
  match RequirementTreeReq__init requirement with
  | Raise e => Raise e
  | Return self_requirement =>
      let loop :=
        match candidates with
        | None => Raise (TypeError "'NoneType' object is not iterable")
        | Some od => check_candidates od
        end in
      match loop with
      | Raise e => Raise e
      | Return _ =>
          let self_candidates :=
            match candidates with
            | None => []   (* if candidates is None: self.candidates = OrderedDict() *)
            | Some od => od
            end in
          Return (RequirementTreeChoice self_requirement self_candidates)
      end
  end.

Definition RequirementTreeList__init (children : option (list RequirementTreeNode))
    : outcome RequirementTreeNode :=
  match _check_type children "list" with
  | Raise e => Raise e
  | Return children => Return (RequirementTreeList children)
  end.

(** ** The tree builder *)

Section build_tree_body.
(** [self.build_tree], one level deeper. *)
Variable build_tree : Configurable -> outcome RequirementTreeNode.

(** The loop over [self.providers_cache] for one constrained [subreq]. *)
Fixpoint scan_providers (subreq : Requirement) (providers : list Provider)
    (candidates : list (Provider * RequirementTreeNode)) (satisfiable : bool)
    : outcome (list (Provider * RequirementTreeNode) * bool) :=
  match providers with
  | [] => Return (candidates, satisfiable)
  | potential :: rest =>
      if satisfies potential subreq then
        match build_tree (as_configurable potential) with
        | Return candidate =>
            scan_providers subreq rest (od_set potential candidate candidates) true
        | Raise (DependencyError _) =>
            scan_providers subreq rest candidates satisfiable
        | Raise e => Raise e
        end
      else scan_providers subreq rest candidates satisfiable
  end.

(** The loop over [configurable.get_schema()]. *)
Fixpoint schema_loop (self : DependencyResolver) (schema : list Requirement)
    (deptree : list RequirementTreeNode) : outcome RequirementTreeNode :=
  match schema with
  | [] => RequirementTreeList__init (Some deptree)
  | subreq :: schema' =>
      if negb (constraint_interface subreq) then
        match RequirementTreeReq__init (Some subreq) with
        | Raise e => Raise e
        | Return r => schema_loop self schema' (deptree ++ [RequirementTreeReq r])
        end
      else
        match scan_providers subreq (providers_cache self) [] false with
        | Raise e => Raise e
        | Return (candidates, satisfiable) =>
            if negb satisfiable then Raise (DependencyError subreq)
            else
              match candidates with
              | [] => schema_loop self schema' deptree
              | _ :: _ =>
                  match RequirementTreeChoice__init (Some subreq) (Some candidates) with
                  | Raise e => Raise e
                  | Return node => schema_loop self schema' (deptree ++ [node])
                  end
              end
        end
  end.
End build_tree_body.

(** [build_tree(configurable)], with the interpreter's recursion limit:
    a nest of calls deeper than [limit] raises [RecursionError], which is
    no [DependencyError] and so passes through every handler here. *)
Fixpoint build_tree (limit : nat) (self : DependencyResolver) (configurable : Configurable)
    : outcome RequirementTreeNode :=
  match limit with
  | O => Raise RecursionError
  | S limit' => schema_loop (build_tree limit' self) self (get_schema configurable) []
  end.

(** ** Runtime validation *)

(** What the validator and the visitors do to the world, in the order
    they do it. *)
Inductive event :=
| ReadConfig (node_path : string)
| CallValidate (requirement : Requirement) (node_path : string)
| CallFulfill (provider : Provider) (requirement : Requirement) (node_path : string)
| VisitEnter (node : RequirementTreeNode)
| VisitLeave (node : RequirementTreeNode)
| Visit (node : RequirementTreeNode).

Section runtime.
(** The collaborators outside this module: the live context and the
    values of its configuration store, the separator of configuration
    paths, [context.config[path]], [requirement.validate(value, context)]
    and [provider.fulfill(context, requirement, path)]. *)
Variable Ctx : Type.
Variable Value : Type.
Variable CONFIG_SEPARATOR : string.
Variable config_read : Ctx -> string -> outcome Value.
Variable requirement_validate : Requirement -> Value -> Ctx -> option exn.
Variable provider_fulfill : Provider -> Ctx -> Requirement -> string -> Ctx * option exn.
(** [context.Context], as [ValidateDependenciesVisitor.__init__] reads
    it: the attribute [Context] of the context object itself, since the
    parameter [context] hides any module of that name.  [None] when the
    object has no such attribute, else whether the object is an instance
    of the class the attribute holds. *)
Variable context_Context : Ctx -> option bool.

Record state := mkState {
  context : Ctx;
  trace : list event
}.

(** Computations that read and change the state and may raise. *)
Definition M (A : Type) : Type := state -> state * outcome A.

Definition ret {A} (a : A) : M A := fun st => (st, Return a).
Definition raise {A} (e : exn) : M A := fun st => (st, Raise e).
Definition bind {A B} (m : M A) (k : A -> M B) : M B :=
  fun st =>
    match m st with
    | (st', Return a) => k a st'
    | (st', Raise e) => (st', Raise e)
    end.
(** [try: body except Exception as e: handler(e)] *)
Definition try_except {A} (body : M A) (handler : exn -> M A) : M A :=
  fun st =>
    match body st with
    | (st', Return a) => (st', Return a)
    | (st', Raise e) => handler e st'
    end.
Definition log (ev : event) : M unit :=
  fun st => (mkState (context st) (trace st ++ [ev]), Return tt).

Notation "x <- m ;; k" := (bind m (fun x => k))
  (at level 100, m at next level, right associativity).
Notation "m ;;; k" := (bind m (fun _ => k))
  (at level 100, right associativity).

Definition read_config (node_path : string) : M Value :=
  log (ReadConfig node_path) ;;;
  fun st => (st, config_read (context st) node_path).

Definition call_validate (requirement : Requirement) (value : Value) (node_path : string)
    : M unit :=
  log (CallValidate requirement node_path) ;;;
  fun st =>
    match requirement_validate requirement value (context st) with
    | None => (st, Return tt)
    | Some e => (st, Raise e)
    end.

Definition call_fulfill (provider : Provider) (requirement : Requirement)
    (node_path : string) : M unit :=
  log (CallFulfill provider requirement node_path) ;;;
  fun st =>
    let '(context', raised) := provider_fulfill provider (context st) requirement node_path in
    (mkState context' (trace st),
     match raised with None => Return tt | Some e => Raise e end).

(** The [try] statement that ends the loop body of
    [validate_dependencies]: [false] is its [return False], [true] is
    falling out of it. *)
Definition value_check (requirement : Requirement) (node_path : string) : M bool :=
  try_except
    (value <- read_config node_path ;;
     call_validate requirement value node_path ;;;
     ret true)
    (fun e => if negb (optional requirement) then ret false else ret true).

(** [node.requirement]: a list node has no such attribute. *)
Definition node_requirement (node : RequirementTreeNode) : M Requirement :=
  match node with
  | RequirementTreeReq requirement => ret requirement
  | RequirementTreeChoice requirement _ => ret requirement
  | RequirementTreeList _ => raise (AttributeError "requirement")
  end.

Section validate_body.
(** [self.validate_dependencies], on a subtree. *)
Variable validate_dependencies : RequirementTreeNode -> option string -> M bool.

(** [for provider in node.candidates: ... break ... else: return False]:
    [true] when the loop was left by [break]. *)
Fixpoint select_candidate (requirement : Requirement) (node_path : string)
    (candidates : list (Provider * RequirementTreeNode)) : M bool :=
  match candidates with
  | [] => ret false
  | (provider, subtree) :: rest =>
      ok <- validate_dependencies subtree (Some node_path) ;;
      if ok then
        call_fulfill provider requirement node_path ;;;
        ret true
      else select_candidate requirement node_path rest
  end.

(** The [if isinstance(node, RequirementTreeChoice) and not
    node.requirement.optional] statement: [false] is its
    [return False]. *)
Definition select_branch (node_path : string) (node : RequirementTreeNode) : M bool :=
  match node with
  | RequirementTreeChoice requirement candidates =>
      if negb (optional requirement) then
        select_candidate requirement node_path candidates
      else ret true
  | _ => ret true
  end.

(** One pass of [for node in deptree.children]: [false] is
    [return False], [true] goes on to the next sibling. *)
Definition validate_node (path : string) (node : RequirementTreeNode) : M bool :=
  requirement <- node_requirement node ;;
  let node_path := path +:+ CONFIG_SEPARATOR +:+ name requirement in
  selected <- select_branch node_path node ;;
  if selected then value_check requirement node_path else ret false.

Fixpoint validate_children (path : string) (children : list RequirementTreeNode)
    : M bool :=
  match children with
  | [] => ret true
  | node :: rest =>
      ok <- validate_node path node ;;
      if ok then validate_children path rest else ret false
  end.
End validate_body.

Fixpoint validate_dependencies (deptree : RequirementTreeNode) (path : option string)
    {struct deptree} : M bool :=
  let path := match path with None => "" | Some p => p end in
  match deptree with
  | RequirementTreeList children =>
      validate_children validate_dependencies path children
  | _ => raise (AttributeError "children")
  end.

(** ** Hierarchical tree visitors *)

Record TreeVisitor := mkVisitor {
  visit_enter : RequirementTreeNode -> M bool;
  visit_leave : RequirementTreeNode -> M bool;
  visit : RequirementTreeNode -> M bool
}.

(** The base class: every hook returns [True]. *)
Definition TreeVisitor_base : TreeVisitor :=
  mkVisitor (fun _ => ret true) (fun _ => ret true) (fun _ => ret true).

(** [ValidateDependenciesVisitor.visit]: the visitor keeps the context
    it was given, by reference, and the one path it was given. *)
Definition ValidateDependenciesVisitor_visit (self_node_path : string)
    (node : RequirementTreeNode) : M bool :=
  try_except
    (value <- read_config self_node_path ;;
     requirement <- node_requirement node ;;
     call_validate requirement value self_node_path ;;;
     ret true)
    (fun e =>
       requirement <- node_requirement node ;;
       if negb (optional requirement) then ret false else ret true).

(** The instance with [self.node_path] set: [visit_enter] returns
    [True], [visit_leave] is [self.visit]. *)
Definition ValidateDependenciesVisitor_instance (self_node_path : string) : TreeVisitor :=
  mkVisitor (fun _ => ret true)
            (fun node => ValidateDependenciesVisitor_visit self_node_path node)
            (fun node => ValidateDependenciesVisitor_visit self_node_path node).

(** [ValidateDependenciesVisitor(context, node_path)], on the context of
    the state: the first statement reads [context.Context] and checks
    the context against it, the last checks the path against [str]. *)
Definition ValidateDependenciesVisitor__init (node_path : option string) : M TreeVisitor :=
  fun st =>
    match context_Context (context st) with
    | None => (st, Raise (AttributeError "Context"))
    | Some is_instance =>
        match _check_type (if is_instance then Some (context st) else None) "Context" with
        | Raise e => (st, Raise e)
        | Return self_context =>
            let node_path := match node_path with None => "" | Some p => p end in
            match _check_type (Some node_path) "str" with
            | Raise e => (st, Raise e)
            | Return self_node_path =>
                (st, Return (ValidateDependenciesVisitor_instance self_node_path))
            end
        end
    end.

(** The hook calls of [accept], each recorded before it runs. *)
Definition call_visit_enter (visitor : TreeVisitor) (node : RequirementTreeNode) : M bool :=
  log (VisitEnter node) ;;; visit_enter visitor node.
Definition call_visit_leave (visitor : TreeVisitor) (node : RequirementTreeNode) : M bool :=
  log (VisitLeave node) ;;; visit_leave visitor node.
Definition call_visit (visitor : TreeVisitor) (node : RequirementTreeNode) : M bool :=
  log (Visit node) ;;; visit visitor node.

Section accept_body.
(** What [candidate.apply(visitor)] resolves to. *)
Variable apply_method : RequirementTreeNode -> TreeVisitor -> M bool.

(** [for candidate in self.children: if not candidate.apply(visitor): break] *)
Fixpoint each_child (visitor : TreeVisitor) (children : list RequirementTreeNode)
    : M unit :=
  match children with
  | [] => ret tt
  | candidate :: rest =>
      continue <- apply_method candidate visitor ;;
      if continue then each_child visitor rest else ret tt
  end.

(** [for candidate in self.candidates:
       if not self.candidates[candidate].apply(visitor): break] *)
Fixpoint each_candidate (visitor : TreeVisitor)
    (candidates : list (Provider * RequirementTreeNode)) : M unit :=
  match candidates with
  | [] => ret tt
  | (candidate, subtree) :: rest =>
      continue <- apply_method subtree visitor ;;
      if continue then each_candidate visitor rest else ret tt
  end.

(** The three [accept] methods: [RequirementTreeNode.accept], which
    [RequirementTreeReq] inherits, [RequirementTreeChoice.accept] and
    [RequirementTreeList.accept]. *)
Definition accept_body (node : RequirementTreeNode) (visitor : TreeVisitor) : M bool :=
  match node with
  | RequirementTreeReq _ => call_visit visitor node
  | RequirementTreeChoice _ candidates =>
      enter <- call_visit_enter visitor node ;;
      (if enter then each_candidate visitor candidates else ret tt) ;;;
      call_visit_leave visitor node
  | RequirementTreeList children =>
      enter <- call_visit_enter visitor node ;;
      (if enter then each_child visitor children else ret tt) ;;;
      call_visit_leave visitor node
  end.
End accept_body.

(** No class of the module defines [apply]: the tree classes define
    [accept], and their base [validity.ValidityRoutines] holds the
    [_check_type] and [_check_class] helpers, so looking the attribute
    up on a node fails. *)
Definition node_apply (node : RequirementTreeNode) (visitor : TreeVisitor) : M bool :=
  raise (AttributeError "apply").

(** [node.accept(visitor)], as the module has it. *)
Definition accept (node : RequirementTreeNode) (visitor : TreeVisitor) : M bool :=
  accept_body node_apply node visitor.

(** The traversal the specification describes: a node hands the
    visitor on to its children through [accept] itself. *)
Fixpoint traverse_spec (node : RequirementTreeNode) (visitor : TreeVisitor)
    {struct node} : M bool :=
  accept_body traverse_spec node visitor.
End runtime.

Arguments mkState {Ctx} context trace.
Arguments context {Ctx} s.
Arguments trace {Ctx} s.
Arguments ret {Ctx A} a.
Arguments raise {Ctx A} e.
Arguments bind {Ctx A B} m k.
Arguments try_except {Ctx A} body handler.
Arguments log {Ctx} ev.
Arguments read_config {Ctx Value} config_read node_path.
Arguments call_validate {Ctx Value} requirement_validate requirement value node_path.
Arguments call_fulfill {Ctx} provider_fulfill provider requirement node_path.
Arguments value_check {Ctx Value} config_read requirement_validate requirement node_path.
Arguments node_requirement {Ctx} node.
Arguments select_candidate {Ctx} provider_fulfill validate_dependencies
  requirement node_path candidates.
Arguments select_branch {Ctx} provider_fulfill validate_dependencies node_path node.
Arguments validate_node {Ctx Value} CONFIG_SEPARATOR config_read requirement_validate
  provider_fulfill validate_dependencies path node.
Arguments validate_children {Ctx Value} CONFIG_SEPARATOR config_read requirement_validate
  provider_fulfill validate_dependencies path children.
Arguments validate_dependencies {Ctx Value} CONFIG_SEPARATOR config_read
  requirement_validate provider_fulfill deptree path.
Arguments mkVisitor {Ctx} visit_enter visit_leave visit.
Arguments visit_enter {Ctx} t node.
Arguments visit_leave {Ctx} t node.
Arguments visit {Ctx} t node.
Arguments TreeVisitor_base {Ctx}.
Arguments ValidateDependenciesVisitor_visit {Ctx Value} config_read requirement_validate
  self_node_path node.
Arguments ValidateDependenciesVisitor_instance {Ctx Value} config_read requirement_validate
  self_node_path.
Arguments ValidateDependenciesVisitor__init {Ctx Value} config_read requirement_validate
  context_Context node_path.
Arguments call_visit_enter {Ctx} visitor node.
Arguments call_visit_leave {Ctx} visitor node.
Arguments call_visit {Ctx} visitor node.
Arguments each_child {Ctx} apply_method visitor children.
Arguments each_candidate {Ctx} apply_method visitor candidates.
Arguments accept_body {Ctx} apply_method node visitor.
Arguments node_apply {Ctx} node visitor.
Arguments accept {Ctx} node visitor.
Arguments traverse_spec {Ctx} node visitor.

(** ** Predicates of the specification *)

(** The tokens the capability index holds for a key. *)
Definition index_tokens (index : gmap string (gset string)) (k : string) : gset string :=
  default ∅ (index !! k).

(** One item of a requirement's constraints is either on a key the
    provider does not declare, or overlaps what the provider declares. *)
Definition overlap_ok (p : Provider) (item : string * CapabilityValue) : bool :=
  match provides p !! item.1 with
  | Some pv => bool_of_set (common_provision pv item.2)
  | None => true
  end.

Definition with_constraints (r : Requirement) (m : gmap string CapabilityValue)
    : Requirement :=
  mkRequirement (name r) (optional r) (constraint_interface r) m.

Definition by_key {A} (key : A -> Z) (a b : A) : Prop := (key a <= key b)%Z.
Definition descending (a b : Provider) : Prop := (priority b <= priority a)%Z.
Definition strictly_descending (a b : Provider) : Prop := (priority b < priority a)%Z.
Definition unconstrained (q : Requirement) : Prop := constraint_interface q = false.

(** How a call ended: with a result, or with a [DependencyError]. *)
Definition builds {A} (o : outcome A) : bool :=
  match o with Return _ => true | Raise _ => false end.
Definition gives_up {A} (o : outcome A) : bool :=
  match o with Raise (DependencyError _) => true | _ => false end.
Definition settles {A} (o : outcome A) : bool := builds o || gives_up o.

(** A provider that satisfies the requirement and whose own tree builds. *)
Definition usable (rec : Configurable -> outcome RequirementTreeNode)
    (subreq : Requirement) (p : Provider) : bool :=
  satisfies p subreq && builds (rec (as_configurable p)).

(** A requirement the schema loop gets past: a plain one, or a
    constrained one none of whose satisfying providers aborts the build
    and one of which builds. *)
Definition resolvable (rec : Configurable -> outcome RequirementTreeNode)
    (self : DependencyResolver) (q : Requirement) : Prop :=
  constraint_interface q = false \/
  ((forall p, p ∈ providers_cache self -> satisfies p q = true ->
              settles (rec (as_configurable p)) = true) /\
   (exists p, p ∈ providers_cache self /\ satisfies p q = true /\
              builds (rec (as_configurable p)) = true)).

(** No candidate succeeds: every satisfying provider's own build ends
    in a [DependencyError] (vacuously so when none satisfies). *)
Definition no_candidate (rec : Configurable -> outcome RequirementTreeNode)
    (self : DependencyResolver) (r : Requirement) : Prop :=
  forall p, p ∈ providers_cache self -> satisfies p r = true ->
            gives_up (rec (as_configurable p)) = true.

Fixpoint choices_nonempty (node : RequirementTreeNode) : bool :=
  match node with
  | RequirementTreeReq _ => true
  | RequirementTreeChoice _ candidates =>
      negb (bool_decide (candidates = [])) &&
      forallb (fun pc => choices_nonempty pc.2) candidates
  | RequirementTreeList children => forallb choices_nonempty children
  end.

(** The shape of the trees the builder makes: a list of leaves and of
    choices whose candidates are such lists again. *)
Fixpoint well_formed (node : RequirementTreeNode) : bool :=
  match node with
  | RequirementTreeList children =>
      forallb (fun child =>
                 match child with
                 | RequirementTreeReq _ => true
                 | RequirementTreeChoice _ candidates =>
                     forallb (fun pc => well_formed pc.2) candidates
                 | RequirementTreeList _ => false
                 end) children
  | _ => false
  end.

Definition well_formed_child (child : RequirementTreeNode) : bool :=
  match child with
  | RequirementTreeReq _ => true
  | RequirementTreeChoice _ candidates => forallb (fun pc => well_formed pc.2) candidates
  | RequirementTreeList _ => false
  end.

Definition requirement_of (node : RequirementTreeNode) : option Requirement :=
  match node with
  | RequirementTreeReq requirement => Some requirement
  | RequirementTreeChoice requirement _ => Some requirement
  | RequirementTreeList _ => None
  end.

Section runtime_predicates.
Context {Ctx Value : Type}.
Variable CONFIG_SEPARATOR : string.
Variable config_read : Ctx -> string -> outcome Value.
Variable requirement_validate : Requirement -> Value -> Ctx -> option exn.
Variable provider_fulfill : Provider -> Ctx -> Requirement -> string -> Ctx * option exn.

(** The stored value is missing or unreadable, or the requirement
    rejects it. *)
Definition check_fails (ctx : Ctx) (requirement : Requirement) (node_path : string)
    : bool :=
  match config_read ctx node_path with
  | Raise _ => true
  | Return value =>
      match requirement_validate requirement value ctx with
      | Some _ => true
      | None => false
      end
  end.

(** The candidates are tried one after the other, in the order of the
    list, and none validates; the state the last one leaves. *)
Fixpoint candidates_fail (node_path : string)
    (candidates : list (Provider * RequirementTreeNode)) (st : state Ctx)
    : option (state Ctx) :=
  match candidates with
  | [] => Some st
  | (_, subtree) :: rest =>
      match validate_dependencies CONFIG_SEPARATOR config_read requirement_validate
              provider_fulfill subtree (Some node_path) st with
      | (st', Return false) => candidates_fail node_path rest st'
      | _ => None
      end
  end.

(** Where an exception that leaves the validator can come from: a tree
    of the wrong shape, or [provider.fulfill]. *)
Definition escapes (e : exn) : Prop :=
  (exists attribute, e = AttributeError attribute) \/
  (exists p ctx r node_path, (provider_fulfill p ctx r node_path).2 = Some e).
End runtime_predicates.

(** ** A sample registry and configuration store *)

Module Sample.
Definition plain (n : string) (opt : bool) : Requirement := mkRequirement n opt false ∅.
Definition needs_os (n : string) (opt : bool) (os : string) : Requirement :=
  mkRequirement n opt true {[ "os" := Single os ]}.

Definition LinuxLayer : Provider :=
  mkProvider "LinuxLayer" 10 {[ "os" := Multi ["linux"; "mac"] ]} [plain "path" false].
Definition WindowsLayer : Provider :=
  mkProvider "WindowsLayer" 20 {[ "os" := Single "windows" ]} [].
Definition GenericLayer : Provider :=
  mkProvider "GenericLayer" 5 {[ "os" := Multi ["linux"; "windows"] ]} [].
Definition BareLayer : Provider := mkProvider "BareLayer" 7 ∅ [].
Definition BrokenLayer : Provider :=
  mkProvider "BrokenLayer" 30 {[ "os" := Single "linux" ]}
             [needs_os "base" false "solaris"].

Definition registry : DependencyResolver :=
  DependencyResolver__init [LinuxLayer; WindowsLayer; GenericLayer; BareLayer; BrokenLayer].

Definition memory : Requirement := needs_os "memory" false "linux".
Definition X : Configurable := mkConfigurable [plain "verbose" true; memory].

Definition linux_subtree : RequirementTreeNode :=
  RequirementTreeList [RequirementTreeReq (plain "path" false)].

Definition X_tree : RequirementTreeNode :=
  RequirementTreeList
    [RequirementTreeReq (plain "verbose" true);
     RequirementTreeChoice memory
       [(LinuxLayer, linux_subtree); (GenericLayer, RequirementTreeList [])]].

(** A store of strings under configuration paths; a requirement accepts
    any value but the empty string; fulfilling writes the provider's name
    at the path. *)
Definition store_read (ctx : gmap string string) (node_path : string) : outcome string :=
  match ctx !! node_path with
  | Some value => Return value
  | None => Raise (Failure "KeyError")
  end.
Definition nonblank (r : Requirement) (value : string) (ctx : gmap string string)
    : option exn :=
  if decide (value = "") then Some (Failure "ValueError") else None.
Definition record_choice (p : Provider) (ctx : gmap string string) (r : Requirement)
    (node_path : string) : gmap string string * option exn :=
  (<[ node_path := provider_name p ]> ctx, None).

Definition start : state (gmap string string) := mkState ∅ [].

(** The store is an ordinary context: it has no attribute [Context]. *)
Definition no_Context (ctx : gmap string string) : option bool := None.

Definition three_way : RequirementTreeNode :=
  RequirementTreeList
    [RequirementTreeReq (plain "verbose" true);
     RequirementTreeChoice memory
       [(LinuxLayer, linux_subtree);
        (GenericLayer, RequirementTreeList []);
        (WindowsLayer, RequirementTreeList [])];
     RequirementTreeReq (plain "tail" false)].

(** A visitor whose [visit_leave] says stop on an empty list node. *)
Definition stop_on_empty : TreeVisitor (gmap string string) :=
  mkVisitor (fun _ => ret true)
            (fun node => ret match node with RequirementTreeList [] => false | _ => true end)
            (fun _ => ret true).

Definition A : RequirementTreeNode := RequirementTreeList [].
Definition B : RequirementTreeNode := RequirementTreeReq (plain "b" false).
Definition C : RequirementTreeNode := RequirementTreeReq (plain "c" false).
End Sample.

(** ** Further predicates *)

(** The node the builder makes for a schema entry: a leaf for a plain
    requirement, a choice with at least one candidate for a constrained
    one. *)
Definition node_for (q : Requirement) (node : RequirementTreeNode) : bool :=
  match node with
  | RequirementTreeReq r => negb (constraint_interface q) && bool_decide (r = q)
  | RequirementTreeChoice r candidates =>
      constraint_interface q && bool_decide (r = q) &&
      negb (bool_decide (candidates = []))
  | RequirementTreeList _ => false
  end.

(** Every candidate of every choice is a provider of the registry's list
    that satisfies the choice's requirement. *)
Fixpoint candidates_sound (self : DependencyResolver) (node : RequirementTreeNode) : bool :=
  match node with
  | RequirementTreeReq _ => true
  | RequirementTreeChoice r candidates =>
      forallb (fun pc => bool_decide (pc.1 ∈ providers_cache self) &&
                         satisfies pc.1 r && candidates_sound self pc.2) candidates
  | RequirementTreeList children => forallb (candidates_sound self) children
  end.

(** The exceptions [build_tree] lets out: the interpreter's
    [RecursionError], or a [DependencyError] for a requirement of the
    schema. *)
Definition expected_raise (schema : list Requirement) (e : exn) : Prop :=
  e = RecursionError \/ exists r, e = DependencyError r /\ r ∈ schema.

Definition same_elements (l l' : list Provider) : bool :=
  forallb (fun p => bool_decide (p ∈ l')) l && forallb (fun p => bool_decide (p ∈ l)) l'.

Definition is_fulfill (ev : event) : bool :=
  match ev with CallFulfill _ _ _ => true | _ => false end.

Definition selection_free (node : RequirementTreeNode) : bool :=
  match node with
  | RequirementTreeReq _ => true
  | RequirementTreeChoice r _ => optional r
  | RequirementTreeList _ => false
  end.

Section runtime_more_defs.
Context {Ctx Value : Type}.
Variable CONFIG_SEPARATOR : string.
Variable config_read : Ctx -> string -> outcome Value.
Variable requirement_validate : Requirement -> Value -> Ctx -> option exn.

(** A child that needs no branch selection passes when its value check
    does. *)
Definition node_passes (ctx : Ctx) (path : string) (node : RequirementTreeNode) : bool :=
  match requirement_of node with
  | Some r =>
      negb (check_fails config_read requirement_validate ctx r
              (path +:+ CONFIG_SEPARATOR +:+ name r)) || optional r
  | None => false
  end.
End runtime_more_defs.

(** ** Further samples *)

Module Cases.
(** A provider that requires what it offers itself. *)
Definition LoopLayer : Provider :=
  mkProvider "LoopLayer" 1 {[ "os" := Single "bsd" ]} [Sample.needs_os "below" false "bsd"].
Definition loop_registry : DependencyResolver := DependencyResolver__init [LoopLayer].

(** A provider with a requirement on a key it does not declare. *)
Definition disk : Requirement := mkRequirement "disk" false true {[ "fs" := Single "ext4" ]}.
Definition FsLayer : Provider :=
  mkProvider "FsLayer" 1 {[ "os" := Single "linux" ]} [disk].
Definition fs_registry : DependencyResolver := DependencyResolver__init [FsLayer].

(** A provider that declares an empty list. *)
Definition EmptyLayer : Provider := mkProvider "EmptyLayer" 1 {[ "os" := Multi [] ]} [].

(** Fulfilling writes an empty string, which [Sample.nonblank] rejects. *)
Definition blank_choice (p : Provider) (ctx : gmap string string) (r : Requirement)
    (node_path : string) : gmap string string * option exn :=
  (<[ node_path := "" ]> ctx, None).

Definition optional_memory : Requirement := Sample.needs_os "memory" true "linux".

(** A provider without requirements that offers what [LoopLayer]
    offers, at a higher priority. *)
Definition BsdLayer : Provider := mkProvider "BsdLayer" 2 {[ "os" := Single "bsd" ]} [].
Definition mixed_registry : DependencyResolver :=
  DependencyResolver__init [LoopLayer; BsdLayer].
Definition on_bsd : Configurable :=
  mkConfigurable [Sample.needs_os "memory" false "bsd"].

(** A context object that carries its own class as attribute [Context]. *)
Definition own_Context (ctx : gmap string string) : option bool := Some true.
End Cases.

(** * Facts *)

(** ** Capability matching *)

Lemma satisfies_forallb p r :
  satisfies p r = forallb (overlap_ok p) (map_to_list (constraints r)).
Proof.
  unfold satisfies.
  transitivity (true && forallb (overlap_ok p) (map_to_list (constraints r))); [|done].
  generalize true. induction (map_to_list (constraints r)) as [|[k v] l IH]; intros b; simpl.
  - by rewrite andb_true_r.
  - rewrite IH. unfold overlap_ok at 2. simpl. destruct (provides p !! k); simpl.
    + by rewrite andb_assoc.
    + done.
Qed.

Lemma bool_of_set_true s : bool_of_set s = true <-> s ≠ ∅.
Proof.
  unfold bool_of_set. rewrite negb_true_iff, bool_decide_eq_false. done.
Qed.

Lemma satisfies_iff p r :
  satisfies p r = true <->
  forall k pv cv, provides p !! k = Some pv -> constraints r !! k = Some cv ->
                  common_provision pv cv ≠ ∅.
Proof.
  rewrite satisfies_forallb, forallb_forall. split.
  - intros H k pv cv Hp Hc.
    specialize (H (k, cv)). unfold overlap_ok in H. simpl in H. rewrite Hp in H.
    apply bool_of_set_true, H. apply list_elem_of_In, elem_of_map_to_list, Hc.
  - intros H [k cv] Hin. apply list_elem_of_In, elem_of_map_to_list in Hin.
    unfold overlap_ok. simpl. destruct (provides p !! k) as [pv|] eqn:Hp; [|done].
    apply bool_of_set_true. eauto.
Qed.




(** The end-to-end scenario: os=linux is matched by [linux, mac], not
    by windows, and vacuously by a provider that declares nothing. *)
Example satisfies_end_to_end :
  satisfies Sample.LinuxLayer Sample.memory = true /\
  satisfies Sample.WindowsLayer Sample.memory = false /\
  satisfies Sample.BareLayer Sample.memory = true.
Proof. by vm_compute. Qed.

(** ** The registry *)

Lemma merge_provision_items provider l index cache index' cache' :
  foldl (merge_provision provider) (index, cache) l = (index', cache') ->
  cache' = (if l is [] then cache else cache ∪ {[ provider ]}) /\
  (forall k, is_Some (index' !! k) <-> is_Some (index !! k) \/ exists v, (k, v) ∈ l) /\
  (forall k t, t ∈ index_tokens index' k <->
               t ∈ index_tokens index k \/ exists v, (k, v) ∈ l /\ t ∈ as_list v).
Proof.
  revert index cache. induction l as [|[k0 v0] l IH]; intros index cache; simpl.
  - intros [= <- <-]. split; [done|]. split; intros; set_solver.
  - intros Hf. apply IH in Hf as (Hc & Hk & Ht). split; [|split].
    + rewrite Hc. destruct l; set_solver.
    + intros k. rewrite Hk. rewrite lookup_insert. case_decide as Hd; subst.
      * split; [intros _|intros _; by left]. right. exists v0. set_solver.
      * split; intros [?|[v ?]]; eauto; right; exists v; set_solver.
    + intros k t. rewrite Ht. unfold index_tokens. rewrite lookup_insert.
      case_decide as Hd; subst; simpl.
      * split.
        -- intros [Hin|(v & Hv & Hin)]; [|right; exists v; set_solver].
           destruct v0; simpl in *; apply elem_of_union in Hin as [?|Hin]; eauto;
             right; eexists; (split; [apply list_elem_of_here|]); simpl; set_solver.
        -- intros [Hin|(v & Hv & Hin)].
           ++ left. destruct v0; set_solver.
           ++ apply elem_of_cons in Hv as [Heq|Hv].
              ** simplify_eq. left. destruct v0; simpl in *; set_solver.
              ** right. eauto.
      * split; intros [?|(v & Hv & Hin)]; eauto; right; exists v; set_solver.
Qed.

Lemma build_caches_spec subclasses index cache :
  _build_caches subclasses = (index, cache) ->
  (forall p, p ∈ cache <-> p ∈ subclasses /\ provides p ≠ ∅) /\
  (forall k, is_Some (index !! k) <-> exists p, p ∈ subclasses /\ is_Some (provides p !! k)) /\
  (forall k t, t ∈ index_tokens index k <->
               exists p v, p ∈ subclasses /\ provides p !! k = Some v /\ t ∈ as_list v).
Proof.
  unfold _build_caches.
  assert (Hgen : forall l i0 c0 i1 c1,
    foldl (fun acc provider =>
             foldl (merge_provision provider) acc (map_to_list (provides provider)))
          (i0, c0) l = (i1, c1) ->
    (forall p, p ∈ c1 <-> p ∈ c0 \/ (p ∈ l /\ provides p ≠ ∅)) /\
    (forall k, is_Some (i1 !! k) <->
               is_Some (i0 !! k) \/ exists p, p ∈ l /\ is_Some (provides p !! k)) /\
    (forall k t, t ∈ index_tokens i1 k <->
               t ∈ index_tokens i0 k \/
               exists p v, p ∈ l /\ provides p !! k = Some v /\ t ∈ as_list v)).
  { induction l as [|q l IH]; intros i0 c0 i1 c1; simpl.
    - intros [= <- <-]. repeat split; try set_solver.
    - destruct (foldl (merge_provision q) (i0, c0) (map_to_list (provides q)))
        as [i c] eqn:Hq.
      apply merge_provision_items in Hq as (Hc & Hk & Ht).
      intros Hl. apply IH in Hl as (Hc' & Hk' & Ht'). split; [|split].
      + intros p. rewrite Hc', Hc.
        destruct (map_to_list (provides q)) as [|kv l'] eqn:Hm.
        * apply map_to_list_empty_iff in Hm. set_solver.
        * assert (provides q ≠ ∅).
          { intros He. apply map_to_list_empty_iff in He. congruence. }
          set_solver.
      + intros k. rewrite Hk', Hk. split.
        * intros [[?|[v Hv]]|(p & ? & ?)]; eauto.
          -- right. exists q. split; [set_solver|]. apply elem_of_map_to_list in Hv. eauto.
          -- right. exists p. set_solver.
        * intros [?|(p & Hp & [v Hv])]; eauto.
          apply elem_of_cons in Hp as [->|Hp].
          -- left. right. exists v. by apply elem_of_map_to_list.
          -- right. exists p. eauto.
      + intros k t. rewrite Ht', Ht. split.
        * intros [[?|(v & Hv & ?)]|(p & v & ? & ? & ?)]; eauto.
          -- right. exists q, v. apply elem_of_map_to_list in Hv. set_solver.
          -- right. exists p, v. set_solver.
        * intros [?|(p & v & Hp & Hv & ?)]; eauto.
          apply elem_of_cons in Hp as [->|Hp].
          -- left. right. exists v. split; [by apply elem_of_map_to_list|done].
          -- right. exists p, v. eauto. }
  intros H. apply Hgen in H as (Hc & Hk & Ht). split; [|split].
  - intros p. rewrite Hc. set_solver.
  - intros k. rewrite Hk, lookup_empty. split; [intros [[? [=]]|?]|]; eauto.
  - intros k t. rewrite Ht. unfold index_tokens at 1. rewrite lookup_empty. simpl. set_solver.
Qed.

Lemma insert_by_perm {A} (key : A -> Z) x l : insert_by key x l ≡ₚ x :: l.
Proof.
  induction l as [|y l IH]; simpl; [done|]. case_decide; [done|].
  rewrite IH. apply Permutation_swap.
Qed.

Lemma sorted_perm {A} (key : A -> Z) l : sorted key l ≡ₚ l.
Proof.
  induction l as [|x l IH]; simpl; [done|]. by rewrite insert_by_perm, IH.
Qed.

Lemma insert_by_sorted {A} (key : A -> Z) x l :
  StronglySorted (by_key key) l -> StronglySorted (by_key key) (insert_by key x l).
Proof.
  induction 1 as [|y l Hs IH Hall]; simpl.
  - repeat constructor.
  - case_decide as Hd.
    + constructor; [by constructor|]. constructor; [done|].
      eapply Forall_impl; [exact Hall|]. unfold by_key. intros; simpl in *; lia.
    + constructor; [done|]. rewrite insert_by_perm. constructor; [|done].
      unfold by_key. lia.
Qed.

Lemma sorted_sorted {A} (key : A -> Z) l : StronglySorted (by_key key) (sorted key l).
Proof.
  induction l; simpl; [constructor|]. by apply insert_by_sorted.
Qed.

Lemma StronglySorted_mono {A} (R R' : relation A) l :
  (forall a b, R a b -> R' a b) -> StronglySorted R l -> StronglySorted R' l.
Proof.
  intros HR. induction 1 as [|x l Hs IH Hall]; constructor; [done|].
  eapply Forall_impl; [exact Hall|]. auto.
Qed.

Lemma providers_cache_sorted subclasses :
  StronglySorted descending (providers_cache (DependencyResolver__init subclasses)).
Proof.
  unfold DependencyResolver__init. destruct (_build_caches subclasses) as [index cache].
  simpl. eapply StronglySorted_mono; [|apply sorted_sorted].
  unfold by_key, descending. intros; simpl in *; lia.
Qed.

Lemma providers_cache_NoDup subclasses :
  NoDup (providers_cache (DependencyResolver__init subclasses)).
Proof.
  unfold DependencyResolver__init. destruct (_build_caches subclasses) as [index cache].
  simpl. rewrite sorted_perm. apply NoDup_elements.
Qed.

Lemma elem_of_providers_cache subclasses p :
  p ∈ providers_cache (DependencyResolver__init subclasses) <->
  p ∈ subclasses /\ provides p ≠ ∅.
Proof.
  unfold DependencyResolver__init.
  destruct (_build_caches subclasses) as [index cache] eqn:Hb.
  apply build_caches_spec in Hb as (Hc & _). simpl.
  by rewrite sorted_perm, elem_of_elements.
Qed.

(** C7: the capability index maps each key to the union of the value
    sets all enumerated providers declare for it, and the provider list
    is sorted by descending priority; but a provider is recorded in that
    list only when its [provides] mapping has an entry, since
    [cache.add(provider)] stands inside the loop over the entries: a
    provider with none is left out. *)
Theorem build_caches_skips_bare_providers :
  (forall subclasses p,
     p ∈ providers_cache (DependencyResolver__init subclasses) <->
     p ∈ subclasses /\ provides p ≠ ∅) /\
  (forall subclasses,
     StronglySorted descending (providers_cache (DependencyResolver__init subclasses))) /\
  (forall subclasses k t,
     t ∈ index_tokens (self_provides (DependencyResolver__init subclasses)) k <->
     exists p v, p ∈ subclasses /\ provides p !! k = Some v /\ t ∈ as_list v) /\
  (forall subclasses k,
     is_Some (self_provides (DependencyResolver__init subclasses) !! k) <->
     exists p, p ∈ subclasses /\ is_Some (provides p !! k)) /\
  providers_cache (DependencyResolver__init [Sample.BareLayer]) = [] /\
  Sample.BareLayer ∉ providers_cache Sample.registry.
Proof.
  split; [apply elem_of_providers_cache|]. split; [apply providers_cache_sorted|].
  split; [|split].
  - intros subclasses k t. unfold DependencyResolver__init.
    destruct (_build_caches subclasses) as [index cache] eqn:Hb.
    by apply build_caches_spec in Hb as (_ & _ & Ht).
  - intros subclasses k. unfold DependencyResolver__init.
    destruct (_build_caches subclasses) as [index cache] eqn:Hb.
    by apply build_caches_spec in Hb as (_ & Hk & _).
  - split; [by vm_compute|]. unfold Sample.registry.
    rewrite elem_of_providers_cache. by intros [_ []].
Qed.

(** ** The tree builder *)

Section scan.
Variable rec : Configurable -> outcome RequirementTreeNode.
Variable subreq : Requirement.

Lemma od_set_fresh {V} (k : Provider) (v : V) od :
  k ∉ od.*1 -> od_set k v od = od ++ [(k, v)].
Proof.
  induction od as [|[k' v'] od IH]; simpl; [done|].
  intros Hk. apply not_elem_of_cons in Hk as [? ?]. case_decide; [done|].
  by rewrite IH.
Qed.

Lemma scan_providers_never_dependency_error providers candidates satisfiable r' :
  scan_providers rec subreq providers candidates satisfiable ≠ Raise (DependencyError r').
Proof.
  revert candidates satisfiable.
  induction providers as [|p l IH]; intros c s; simpl; [done|].
  destruct (satisfies p subreq); [|by apply IH].
  destruct (rec (as_configurable p)) as [t|[]]; try done; apply IH.
Qed.

Lemma scan_providers_settled providers candidates satisfiable res :
  scan_providers rec subreq providers candidates satisfiable = Return res ->
  forall p, p ∈ providers -> satisfies p subreq = true ->
            settles (rec (as_configurable p)) = true.
Proof.
  revert candidates satisfiable.
  induction providers as [|q l IH]; intros c s; simpl.
  - intros _ p Hp. by apply elem_of_nil in Hp.
  - intros Hscan p Hp Hsat.
    destruct (satisfies q subreq) eqn:Hq.
    + destruct (rec (as_configurable q)) as [t|e] eqn:Hrec.
      * apply elem_of_cons in Hp as [->|Hp]; [by rewrite Hrec|]. eauto.
      * destruct e; try done.
        apply elem_of_cons in Hp as [->|Hp]; [by rewrite Hrec|]. eauto.
    + apply elem_of_cons in Hp as [->|Hp]; [congruence|]. eauto.
Qed.

Lemma scan_providers_run providers candidates satisfiable :
  NoDup providers ->
  (forall p, p ∈ providers -> p ∉ candidates.*1) ->
  (forall p, p ∈ providers -> satisfies p subreq = true ->
             settles (rec (as_configurable p)) = true) ->
  exists found,
    scan_providers rec subreq providers candidates satisfiable =
      Return (candidates ++ found,
              satisfiable || negb (bool_decide (found = []))) /\
    found.*1 = filter (fun p => usable rec subreq p = true) providers /\
    (forall p t, (p, t) ∈ found -> rec (as_configurable p) = Return t).
Proof.
  revert candidates satisfiable.
  induction providers as [|q l IH]; intros c s Hnd Hfresh Hset; simpl.
  - exists []. rewrite app_nil_r, orb_false_r. split; [done|]. split; [done|].
    intros ?? H. by apply elem_of_nil in H.
  - apply NoDup_cons in Hnd as [Hq Hnd].
    assert (Hset' : forall p, p ∈ l -> satisfies p subreq = true ->
                              settles (rec (as_configurable p)) = true)
      by (intros; apply Hset; [by right|done]).
    destruct (satisfies q subreq) eqn:Hsat; simpl.
    + specialize (Hset q (list_elem_of_here _ _) Hsat).
      destruct (rec (as_configurable q)) as [t|e] eqn:Hrec; simpl.
      * rewrite od_set_fresh by (apply Hfresh; left).
        destruct (IH (c ++ [(q, t)]) true Hnd) as (found & Hscan & Hkeys & Hrecs);
          [|done|].
        { intros p Hp. rewrite fmap_app, elem_of_app.
          intros [?|Hin]; [by eapply Hfresh; [right|]|].
          apply list_elem_of_singleton in Hin. simpl in Hin. by subst. }
        exists ((q, t) :: found). rewrite Hscan, <- app_assoc.
        split; [simpl; by rewrite orb_true_r|].
        split.
        { rewrite filter_cons_True by (unfold usable; by rewrite Hsat, Hrec).
          by rewrite fmap_cons, Hkeys. }
        intros p t' [[= -> ->]|?]%elem_of_cons; eauto.
      * destruct e; try done.
        destruct (IH c s Hnd) as (found & Hscan & Hkeys & Hrecs); [|done|].
        { intros; apply Hfresh; by right. }
        exists found. rewrite Hscan. split; [done|]. split; [|done].
        rewrite filter_cons_False; [done|]. unfold usable. by rewrite Hsat, Hrec.
    + destruct (IH c s Hnd) as (found & Hscan & Hkeys & Hrecs); [|done|].
      { intros; apply Hfresh; by right. }
      exists found. rewrite Hscan. split; [done|]. split; [|done].
      rewrite filter_cons_False; [done|]. unfold usable. by rewrite Hsat.
Qed.

Lemma elem_of_od_set {V} (k : Provider) (v : V) od p t :
  (p, t) ∈ od_set k v od -> (p, t) = (k, v) \/ (p, t) ∈ od.
Proof.
  induction od as [|[k' v'] od IH]; simpl.
  - intros ->%list_elem_of_singleton. by left.
  - case_decide.
    + intros [->|?]%elem_of_cons; [by left|]. right. by right.
    + intros [->|?]%elem_of_cons; [right; by left|].
      destruct IH as [?|?]; [done|by left|right; by right].
Qed.

Lemma od_set_not_nil {V} (k : Provider) (v : V) od : od_set k v od ≠ [].
Proof. destruct od as [|[k' v'] od]; simpl; [done|]. by case_decide. Qed.

Lemma scan_providers_values providers candidates satisfiable c' s' :
  scan_providers rec subreq providers candidates satisfiable = Return (c', s') ->
  forall p t, (p, t) ∈ c' ->
              (p, t) ∈ candidates \/ rec (as_configurable p) = Return t.
Proof.
  revert candidates satisfiable.
  induction providers as [|q l IH]; intros c s; simpl.
  - intros [= <- <-]. eauto.
  - destruct (satisfies q subreq); [|by apply IH].
    destruct (rec (as_configurable q)) as [t0|e] eqn:Hrec.
    + intros Hscan p t Hin. destruct (IH _ _ Hscan p t Hin) as [Hold|?]; [|by right].
      apply elem_of_od_set in Hold as [[= -> ->]|?]; eauto.
    + destruct e; try done. apply IH.
Qed.

Lemma scan_providers_flag providers candidates satisfiable c' s' :
  scan_providers rec subreq providers candidates satisfiable = Return (c', s') ->
  s' = satisfiable || existsb (usable rec subreq) providers /\
  (candidates ≠ [] \/ existsb (usable rec subreq) providers = true -> c' ≠ []).
Proof.
  revert candidates satisfiable.
  induction providers as [|q l IH]; intros c s; simpl.
  - intros [= <- <-]. rewrite orb_false_r. split; [done|]. by intros [?|?].
  - unfold usable at 1 3. destruct (satisfies q subreq); simpl; [|by apply IH].
    destruct (rec (as_configurable q)) as [t0|e] eqn:Hrec; simpl.
    + intros [-> Hne]%IH. rewrite orb_true_r. split; [done|].
      intros _. apply Hne. left. apply od_set_not_nil.
    + destruct e; try done. apply IH.
Qed.

Lemma scan_providers_total providers candidates satisfiable :
  (forall p, p ∈ providers -> satisfies p subreq = true ->
             settles (rec (as_configurable p)) = true) ->
  exists c', scan_providers rec subreq providers candidates satisfiable =
             Return (c', satisfiable || existsb (usable rec subreq) providers).
Proof.
  revert candidates satisfiable.
  induction providers as [|q l IH]; intros c s Hset; simpl.
  - exists c. by rewrite orb_false_r.
  - assert (Hset' : forall p, p ∈ l -> satisfies p subreq = true ->
                              settles (rec (as_configurable p)) = true)
      by (intros; apply Hset; [by right|done]).
    unfold usable at 1. destruct (satisfies q subreq) eqn:Hsat; simpl; [|by apply IH].
    specialize (Hset q (list_elem_of_here _ _) Hsat).
    destruct (rec (as_configurable q)) as [t0|e] eqn:Hrec; simpl.
    + destruct (IH (od_set q t0 c) true Hset') as [c' ->]. exists c'.
      by rewrite orb_true_r.
    + destruct e; try done. by apply IH.
Qed.
End scan.

Lemma check_candidates_lists od :
  (forall p t, (p, t) ∈ od -> is_list_node t = true) -> check_candidates od = Return tt.
Proof.
  induction od as [|[p t] od IH]; simpl; [done|]. intros H.
  rewrite (H p t) by left. apply IH. intros; eapply H; by right.
Qed.

Lemma RequirementTreeChoice__init_built r od :
  (forall p t, (p, t) ∈ od -> is_list_node t = true) ->
  RequirementTreeChoice__init (Some r) (Some od) = Return (RequirementTreeChoice r od).
Proof.
  intros H. unfold RequirementTreeChoice__init. simpl. by rewrite check_candidates_lists.
Qed.

Lemma RequirementTreeChoice__init_inv r od res :
  RequirementTreeChoice__init (Some r) (Some od) = res ->
  res = Return (RequirementTreeChoice r od) \/ exists m, res = Raise (CheckFailed m).
Proof.
  unfold RequirementTreeChoice__init. simpl. intros <-.
  destruct (check_candidates od) as [[]|e] eqn:Hc; [by left|right].
  induction od as [|[p t] od IH]; simpl in Hc; [done|].
  destruct (is_list_node t); [auto|]. injection Hc as <-. eauto.
Qed.

Lemma existsb_usable rec r l :
  existsb (usable rec r) l = true <->
  exists p, p ∈ l /\ satisfies p r = true /\ builds (rec (as_configurable p)) = true.
Proof.
  rewrite existsb_exists. unfold usable. split.
  - intros (p & Hin & [? ?]%andb_true_iff). exists p. by rewrite <- list_elem_of_In in Hin.
  - intros (p & Hin & ? & ?). exists p. rewrite <- list_elem_of_In. split; [done|].
    by apply andb_true_iff.
Qed.

Section schema.
Variable rec : Configurable -> outcome RequirementTreeNode.
Variable self : DependencyResolver.

Lemma schema_loop_list schema deptree t :
  schema_loop rec self schema deptree = Return t -> is_list_node t = true.
Proof.
  revert deptree. induction schema as [|q schema IH]; intros deptree; simpl.
  - by intros [= <-].
  - destruct (constraint_interface q); simpl; [|by apply IH].
    destruct (scan_providers _ _ _ _ _) as [[c s]|e]; [|done].
    destruct s; simpl; [|done]. destruct c as [|pc c]; [by apply IH|].
    destruct (RequirementTreeChoice__init _ _); [by apply IH|done].
Qed.

Hypothesis rec_list : forall c t, rec c = Return t -> is_list_node t = true.

Lemma schema_loop_gives_up pre r post deptree :
  Forall (resolvable rec self) pre ->
  constraint_interface r = true ->
  no_candidate rec self r ->
  schema_loop rec self (pre ++ r :: post) deptree = Raise (DependencyError r).
Proof.
  intros Hpre Hr Hno. revert deptree.
  induction Hpre as [|q pre Hq _ IH]; intros deptree; simpl.
  - rewrite Hr. simpl.
    destruct (scan_providers_total rec r (providers_cache self) [] false) as [c' Hscan].
    { intros p Hp Hsat. unfold settles. by rewrite (Hno p Hp Hsat), orb_true_r. }
    rewrite Hscan. simpl.
    destruct (existsb (usable rec r) (providers_cache self)) eqn:Hex; [|done].
    apply existsb_usable in Hex as (p & Hp & Hsat & Hb).
    specialize (Hno p Hp Hsat). by destruct (rec (as_configurable p)) as [|[]].
  - destruct (constraint_interface q) eqn:Hc; simpl; [|by apply IH].
    destruct Hq as [?|[Hset Hex]]; [congruence|].
    destruct (scan_providers_total rec q (providers_cache self) [] false Hset)
      as [c' Hscan].
    rewrite Hscan. simpl. apply existsb_usable in Hex as Hex'. rewrite Hex'. simpl.
    destruct c' as [|pc c']; [by apply IH|].
    rewrite RequirementTreeChoice__init_built; [by apply IH|].
    intros p t Hin.
    destruct (scan_providers_values _ _ _ _ _ _ _ Hscan p t Hin) as [Hnil|?]; eauto.
    by apply elem_of_nil in Hnil.
Qed.

Lemma schema_loop_dependency_error schema deptree r :
  schema_loop rec self schema deptree = Raise (DependencyError r) ->
  exists pre post, schema = pre ++ r :: post /\
    Forall (resolvable rec self) pre /\
    constraint_interface r = true /\
    no_candidate rec self r.
Proof.
  revert deptree. induction schema as [|q schema IH]; intros deptree; simpl; [done|].
  destruct (constraint_interface q) eqn:Hc; simpl.
  - destruct (scan_providers _ _ _ _ _) as [[c s]|e] eqn:Hscan.
    + pose proof (scan_providers_settled _ _ _ _ _ _ Hscan) as Hset.
      apply scan_providers_flag in Hscan as [-> _]. simpl.
      destruct (existsb _ _) eqn:Hex; simpl.
      * assert (Hq : resolvable rec self q).
        { right. split; [done|]. by apply existsb_usable. }
        assert (Hnext : forall d, schema_loop rec self schema d = Raise (DependencyError r) ->
          exists pre post, q :: schema = pre ++ r :: post /\
            Forall (resolvable rec self) pre /\ constraint_interface r = true /\
            no_candidate rec self r).
        { intros d (pre & post & -> & ? & ? & ?)%IH.
          exists (q :: pre), post. split; [done|]. split; [by constructor|done]. }
        destruct c as [|pc c]; [by apply Hnext|].
        destruct (RequirementTreeChoice__init_inv q (pc :: c) _ eq_refl)
          as [->|[m ->]]; [by apply Hnext|done].
      * intros [= <-]. exists [], schema. split; [done|]. split; [constructor|].
        split; [done|]. intros p Hp Hsat. specialize (Hset p Hp Hsat).
        unfold settles in Hset.
        destruct (builds (rec (as_configurable p))) eqn:Hb; [|done].
        assert (existsb (usable rec q) (providers_cache self) = true); [|congruence].
        apply existsb_usable. eauto.
    + intros [= ->]. by apply scan_providers_never_dependency_error in Hscan.
  - intros (pre & post & -> & ? & ? & ?)%IH.
    exists (q :: pre), post. split; [done|]. split; [|done].
    constructor; [by left|done].
Qed.
End schema.

Lemma build_tree_list limit self c t :
  build_tree limit self c = Return t -> is_list_node t = true.
Proof. destruct limit; simpl; [done|]. apply schema_loop_list. Qed.

Lemma build_tree_dependency_error limit self c r :
  build_tree (S limit) self c = Raise (DependencyError r) <->
  exists pre post, get_schema c = pre ++ r :: post /\
    Forall (resolvable (build_tree limit self) self) pre /\
    constraint_interface r = true /\
    no_candidate (build_tree limit self) self r.
Proof.
  simpl. split.
  - apply schema_loop_dependency_error.
  - intros (pre & post & -> & ? & ? & ?). apply schema_loop_gives_up; try done.
    apply build_tree_list.
Qed.

(** C2: [build_tree] raises the [DependencyError] that names a
    constrained requirement exactly when it is the first of the schema
    for which no candidate succeeds, be it that no registered provider
    satisfies it or that the own build of every provider that does ends
    in [DependencyError]; whether the requirement is optional plays no
    part.  The candidate loop catches the [DependencyError] of a
    candidate's build, drops that candidate alone and never hands the
    error on: the error [build_tree] raises names a requirement of its
    own schema. *)
Theorem build_tree_dependency_error_iff :
  (forall limit self c r,
     build_tree (S limit) self c = Raise (DependencyError r) <->
     exists pre post, get_schema c = pre ++ r :: post /\
       Forall (resolvable (build_tree limit self) self) pre /\
       constraint_interface r = true /\
       no_candidate (build_tree limit self) self r) /\
  (forall limit self r,
     constraint_interface r = true ->
     (forall p, p ∈ providers_cache self -> satisfies p r = false) ->
     build_tree (S limit) self (mkConfigurable [r]) = Raise (DependencyError r)) /\
  (forall limit self r,
     optional r = true -> constraint_interface r = true ->
     no_candidate (build_tree limit self) self r ->
     build_tree (S limit) self (mkConfigurable [r]) = Raise (DependencyError r)) /\
  (forall rec subreq providers candidates satisfiable r',
     scan_providers rec subreq providers candidates satisfiable
       ≠ Raise (DependencyError r')) /\
  (forall rec subreq p rest candidates satisfiable r',
     satisfies p subreq = true ->
     rec (as_configurable p) = Raise (DependencyError r') ->
     scan_providers rec subreq (p :: rest) candidates satisfiable =
     scan_providers rec subreq rest candidates satisfiable) /\
  (forall limit self c r,
     build_tree (S limit) self c = Raise (DependencyError r) -> r ∈ get_schema c).
Proof.
  split; [apply build_tree_dependency_error|].
  split; [|split; [|split; [|split]]].
  - intros limit self r Hr Hnone. apply build_tree_dependency_error.
    exists [], []. split; [done|]. split; [constructor|]. split; [done|].
    intros p Hp Hsat. rewrite (Hnone p Hp) in Hsat. done.
  - intros limit self r _ Hr Hno. apply build_tree_dependency_error.
    exists [], []. split; [done|]. split; [constructor|]. done.
  - apply scan_providers_never_dependency_error.
  - intros rec subreq p rest candidates satisfiable r' Hsat Hrec. simpl.
    by rewrite Hsat, Hrec.
  - intros limit self c r (pre & post & -> & _)%build_tree_dependency_error.
    apply elem_of_app. right. left.
Qed.

(** No provider offers solaris; [BrokenLayer] needs it, and with
    [BrokenLayer] as the only provider [X] cannot be built. *)
Example build_tree_no_provider :
  build_tree 3 Sample.registry (mkConfigurable [Sample.needs_os "base" true "solaris"])
  = Raise (DependencyError (Sample.needs_os "base" true "solaris")) /\
  build_tree 3 Sample.registry (as_configurable Sample.BrokenLayer)
  = Raise (DependencyError (Sample.needs_os "base" false "solaris")) /\
  build_tree 3 (DependencyResolver__init [Sample.BrokenLayer]) Sample.X
  = Raise (DependencyError Sample.memory).
Proof. by vm_compute. Qed.

Lemma choices_nonempty_choice r candidates :
  choices_nonempty (RequirementTreeChoice r candidates) = true <->
  candidates ≠ [] /\ forall p t, (p, t) ∈ candidates -> choices_nonempty t = true.
Proof.
  simpl. rewrite andb_true_iff, negb_true_iff, bool_decide_eq_false, forallb_forall.
  split; intros [Hne Hall]; (split; [done|]).
  - intros p t Hin%list_elem_of_In. apply (Hall (p, t) Hin).
  - intros [p t] Hin%list_elem_of_In. eauto.
Qed.

Section invariant.
Variable rec : Configurable -> outcome RequirementTreeNode.
Variable self : DependencyResolver.
Hypothesis rec_nonempty : forall c t, rec c = Return t -> choices_nonempty t = true.

Lemma schema_loop_choices_nonempty schema deptree tree :
  forallb choices_nonempty deptree = true ->
  schema_loop rec self schema deptree = Return tree ->
  choices_nonempty tree = true.
Proof.
  revert deptree. induction schema as [|q schema IH]; intros deptree Hd; simpl.
  - by intros [= <-].
  - destruct (constraint_interface q); simpl.
    + destruct (scan_providers _ _ _ _ _) as [[c s]|e] eqn:Hscan; [|done].
      destruct s; simpl; [|done]. destruct c as [|pc c]; [by apply IH|].
      destruct (RequirementTreeChoice__init_inv q (pc :: c) _ eq_refl)
        as [->|[m ->]]; [|done].
      apply IH. rewrite forallb_app, Hd. cbn [forallb andb].
      rewrite andb_true_r. apply choices_nonempty_choice. split; [done|].
      intros p t Hin.
      destruct (scan_providers_values _ _ _ _ _ _ _ Hscan p t Hin) as [Hnil|?]; eauto.
      by apply elem_of_nil in Hnil.
    + apply IH. by rewrite forallb_app, Hd.
Qed.
End invariant.

(** C6: in every tree a successful [build_tree] returns, at any depth,
    each choice node has at least one candidate: the builder raises
    [DependencyError] rather than append a choice with none. *)
Theorem build_tree_choices_nonempty limit self c tree :
  build_tree limit self c = Return tree -> choices_nonempty tree = true.
Proof.
  revert c tree. induction limit as [|limit IH]; intros c tree; simpl; [done|].
  by apply schema_loop_choices_nonempty.
Qed.

(** The tree built for the sample configurable [X] has two candidates
    under its one choice. *)
Lemma build_tree_choices_nonempty_witness :
  build_tree 3 Sample.registry Sample.X = Return Sample.X_tree /\
  choices_nonempty Sample.X_tree = true.
Proof.
  split; [vm_compute; reflexivity|].
  apply (build_tree_choices_nonempty 3 Sample.registry Sample.X).
  vm_compute; reflexivity.
Defined.

Lemma schema_loop_leaves rec self l rest deptree :
  Forall unconstrained l ->
  schema_loop rec self (l ++ rest) deptree =
  schema_loop rec self rest (deptree ++ map RequirementTreeReq l).
Proof.
  intros Hl. revert deptree. induction Hl as [|q l Hq _ IH]; intros deptree; simpl.
  - by rewrite app_nil_r.
  - rewrite Hq. simpl. rewrite IH, <- app_assoc. done.
Qed.

Lemma schema_loop_leaves_end rec self l deptree :
  Forall unconstrained l ->
  schema_loop rec self l deptree =
  Return (RequirementTreeList (deptree ++ map RequirementTreeReq l)).
Proof.
  intros Hl. rewrite <- (app_nil_r l) at 1. by rewrite schema_loop_leaves.
Qed.

(** What the candidate scan and the schema loop raise and return. *)

Section scan_more.
Variable rec rec' : Configurable -> outcome RequirementTreeNode.
Variable subreq : Requirement.

Lemma scan_providers_raises providers candidates satisfiable e :
  scan_providers rec subreq providers candidates satisfiable = Raise e ->
  exists p, p ∈ providers /\ rec (as_configurable p) = Raise e.
Proof.
  revert candidates satisfiable.
  induction providers as [|q l IH]; intros c s; simpl; [done|].
  assert (Hrest : forall c s, scan_providers rec subreq l c s = Raise e ->
                              exists p, p ∈ q :: l /\ rec (as_configurable p) = Raise e).
  { intros c0 s0 (p & ? & ?)%IH. exists p. split; [by right|done]. }
  destruct (satisfies q subreq); [|by apply Hrest].
  destruct (rec (as_configurable q)) as [t|e'] eqn:Hrec; [by apply Hrest|].
  destruct e'; try by apply Hrest.
  all: intros [= <-]; exists q; split; [by left|done].
Qed.

Lemma scan_providers_aborts providers candidates satisfiable :
  (forall c e, rec c = Raise e -> e = RecursionError \/ exists r, e = DependencyError r) ->
  (exists p, p ∈ providers /\ satisfies p subreq = true /\
             settles (rec (as_configurable p)) = false) ->
  scan_providers rec subreq providers candidates satisfiable = Raise RecursionError.
Proof.
  intros Hrec. revert candidates satisfiable.
  induction providers as [|q l IH]; intros c s (p & Hp & Hsat & Hset); simpl.
  - by apply elem_of_nil in Hp.
  - assert (Hrest : p ≠ q -> forall c s,
              scan_providers rec subreq l c s = Raise RecursionError).
    { intros Hne c0 s0. apply IH. exists p. split; [|done].
      apply elem_of_cons in Hp as [?|?]; done. }
    destruct (satisfies q subreq) eqn:Hq.
    + destruct (rec (as_configurable q)) as [t|e] eqn:Hq'.
      * apply Hrest. intros ->. by rewrite Hq' in Hset.
      * destruct (Hrec _ _ Hq') as [->|[r' ->]]; [done|].
        apply Hrest. intros ->. by rewrite Hq' in Hset.
    + apply Hrest. intros ->. congruence.
Qed.

Lemma scan_providers_members providers candidates satisfiable c' s' :
  scan_providers rec subreq providers candidates satisfiable = Return (c', s') ->
  forall p t, (p, t) ∈ c' ->
    (p, t) ∈ candidates \/
    (p ∈ providers /\ satisfies p subreq = true /\ rec (as_configurable p) = Return t).
Proof.
  revert candidates satisfiable.
  induction providers as [|q l IH]; intros c s; simpl.
  - intros [= <- <-]. eauto.
  - assert (Hrest : forall c s, scan_providers rec subreq l c s = Return (c', s') ->
      forall p t, (p, t) ∈ c' -> (p, t) ∈ c \/
        (p ∈ q :: l /\ satisfies p subreq = true /\ rec (as_configurable p) = Return t)).
    { intros c0 s0 H p t Hin. destruct (IH _ _ H p t Hin) as [?|(? & ? & ?)]; [by left|].
      right. split; [by right|done]. }
    destruct (satisfies q subreq) eqn:Hsat; [|by apply Hrest].
    destruct (rec (as_configurable q)) as [t0|e] eqn:Hrec.
    + intros Hscan p t Hin. destruct (Hrest _ _ Hscan p t Hin) as [Hold|?]; [|by right].
      apply elem_of_od_set in Hold as [[= -> ->]|?]; [|by left].
      right. split; [by left|done].
    + destruct e; try done. apply Hrest.
Qed.

Lemma scan_providers_ext providers candidates satisfiable :
  (forall p, p ∈ providers -> satisfies p subreq = true ->
             rec (as_configurable p) = rec' (as_configurable p)) ->
  scan_providers rec subreq providers candidates satisfiable =
  scan_providers rec' subreq providers candidates satisfiable.
Proof.
  revert candidates satisfiable.
  induction providers as [|q l IH]; intros c s Hext; simpl; [done|].
  assert (Hl : forall p, p ∈ l -> satisfies p subreq = true ->
                         rec (as_configurable p) = rec' (as_configurable p))
    by (intros; apply Hext; [by right|done]).
  destruct (satisfies q subreq) eqn:Hsat; [|by apply IH].
  rewrite <- (Hext q) by (done || by left).
  destruct (rec (as_configurable q)) as [t|[]]; try done; by apply IH.
Qed.
End scan_more.

Section schema_more.
Variable rec : Configurable -> outcome RequirementTreeNode.
Variable self : DependencyResolver.
Hypothesis rec_list : forall c t, rec c = Return t -> is_list_node t = true.

Lemma scan_candidates_init q c s :
  scan_providers rec q (providers_cache self) [] false = Return (c, s) ->
  RequirementTreeChoice__init (Some q) (Some c) = Return (RequirementTreeChoice q c).
Proof.
  intros Hscan. apply RequirementTreeChoice__init_built. intros p t Hin.
  destruct (scan_providers_values _ _ _ _ _ _ _ Hscan p t Hin) as [Hnil|?]; eauto.
  by apply elem_of_nil in Hnil.
Qed.

Lemma schema_loop_raises schema deptree e :
  (forall c e, rec c = Raise e -> e = RecursionError \/ exists r, e = DependencyError r) ->
  schema_loop rec self schema deptree = Raise e ->
  expected_raise schema e.
Proof.
  intros Hrec. revert deptree.
  assert (Hnext : forall q l, expected_raise l e -> expected_raise (q :: l) e).
  { intros q l [?|(r & ? & ?)]; [by left|right]. exists r. split; [done|by right]. }
  induction schema as [|q schema IH]; intros deptree; simpl; [done|].
  destruct (constraint_interface q); simpl; [|intros ?%IH; by apply Hnext].
  destruct (scan_providers _ _ _ _ _) as [[c s]|e'] eqn:Hscan.
  - destruct s; simpl.
    + destruct c as [|pc c]; [intros ?%IH; by apply Hnext|].
      rewrite (scan_candidates_init _ _ _ Hscan). intros ?%IH. by apply Hnext.
    + intros [= <-]. right. exists q. split; [done|by left].
  - intros [= ->]. pose proof Hscan as (p & _ & Hp)%scan_providers_raises.
    destruct (Hrec _ _ Hp) as [->|[r ->]]; [by left|].
    by apply scan_providers_never_dependency_error in Hscan.
Qed.

Lemma schema_loop_shape schema deptree t :
  schema_loop rec self schema deptree = Return t ->
  exists nodes, t = RequirementTreeList (deptree ++ nodes) /\
                Forall2 (fun q node => node_for q node = true) schema nodes.
Proof.
  revert deptree. induction schema as [|q schema IH]; intros deptree; simpl.
  - intros [= <-]. exists []. by rewrite app_nil_r.
  - assert (Hnext : forall node, node_for q node = true ->
      schema_loop rec self schema (deptree ++ [node]) = Return t ->
      exists nodes, t = RequirementTreeList (deptree ++ nodes) /\
                    Forall2 (fun q node => node_for q node = true) (q :: schema) nodes).
    { intros node Hnode (nodes & -> & Hall)%IH. exists (node :: nodes).
      rewrite <- app_assoc. split; [done|by constructor]. }
    destruct (constraint_interface q) eqn:Hq; simpl.
    + destruct (scan_providers _ _ _ _ _) as [[c s]|e'] eqn:Hscan; [|done].
      pose proof (scan_providers_flag _ _ _ _ _ _ _ Hscan) as [-> Hne]. simpl in *.
      destruct (existsb _ _) eqn:Hex; simpl; [|done].
      destruct c as [|pc c]; [exfalso; apply Hne; [by right|done]|].
      rewrite (scan_candidates_init _ _ _ Hscan). apply Hnext.
      simpl. rewrite Hq. by rewrite bool_decide_eq_true_2.
    + apply Hnext. simpl. rewrite Hq. by rewrite bool_decide_eq_true_2.
Qed.

Lemma schema_loop_scanned schema deptree t :
  schema_loop rec self schema deptree = Return t ->
  forall r, r ∈ schema -> constraint_interface r = true ->
    exists res, scan_providers rec r (providers_cache self) [] false = Return res.
Proof.
  revert deptree. induction schema as [|q schema IH]; intros deptree; simpl.
  - intros _ r Hr. by apply elem_of_nil in Hr.
  - destruct (constraint_interface q) eqn:Hq; simpl.
    + destruct (scan_providers _ _ _ _ _) as [[c s]|e'] eqn:Hscan; [|done].
      destruct s; simpl; [|done]. intros Hloop r [->|Hr]%elem_of_cons Hc; [eauto|].
      destruct c as [|pc c]; [by eapply IH|].
      rewrite (scan_candidates_init _ _ _ Hscan) in Hloop. by eapply IH.
    + intros Hloop r [->|Hr]%elem_of_cons Hc; [congruence|]. by eapply IH.
Qed.

Lemma schema_loop_sound schema deptree t :
  (forall c t, rec c = Return t -> candidates_sound self t = true) ->
  forallb (candidates_sound self) deptree = true ->
  schema_loop rec self schema deptree = Return t ->
  candidates_sound self t = true.
Proof.
  intros Hrec. revert deptree. induction schema as [|q schema IH]; intros deptree Hd; simpl.
  - by intros [= <-].
  - destruct (constraint_interface q); simpl.
    + destruct (scan_providers _ _ _ _ _) as [[c s]|e'] eqn:Hscan; [|done].
      destruct s; simpl; [|done]. destruct c as [|pc c]; [by apply IH|].
      rewrite (scan_candidates_init _ _ _ Hscan). apply IH.
      rewrite forallb_app, Hd. cbn [forallb andb]. rewrite andb_true_r.
      cbn [candidates_sound]. apply forallb_forall. intros [p t0] Hin%list_elem_of_In.
      destruct (scan_providers_members _ _ _ _ _ _ _ Hscan p t0 Hin)
        as [Hnil|(Hp & Hsat & Ht)]; [by apply elem_of_nil in Hnil|].
      simpl. rewrite Hsat, (Hrec _ _ Ht), bool_decide_eq_true_2; done.
    + apply IH. by rewrite forallb_app, Hd.
Qed.

Lemma schema_loop_well_formed schema deptree t :
  (forall c t, rec c = Return t -> well_formed t = true) ->
  forallb well_formed_child deptree = true ->
  schema_loop rec self schema deptree = Return t ->
  well_formed t = true.
Proof.
  intros Hrec. revert deptree. induction schema as [|q schema IH]; intros deptree Hd; simpl.
  - by intros [= <-].
  - destruct (constraint_interface q); simpl.
    + destruct (scan_providers _ _ _ _ _) as [[c s]|e'] eqn:Hscan; [|done].
      destruct s; simpl; [|done]. destruct c as [|pc c]; [by apply IH|].
      rewrite (scan_candidates_init _ _ _ Hscan). apply IH.
      rewrite forallb_app, Hd. cbn [forallb andb]. rewrite andb_true_r.
      cbn [well_formed_child]. apply forallb_forall. intros [p t0] Hin%list_elem_of_In.
      destruct (scan_providers_values _ _ _ _ _ _ _ Hscan p t0 Hin) as [Hnil|Ht];
        [by apply elem_of_nil in Hnil|].
      simpl. eauto.
    + apply IH. by rewrite forallb_app, Hd.
Qed.
End schema_more.

Lemma build_tree_raises limit self c e :
  build_tree limit self c = Raise e -> expected_raise (get_schema c) e.
Proof.
  revert c e. induction limit as [|limit IH]; intros c e; simpl.
  - intros [= <-]. by left.
  - apply schema_loop_raises; [apply build_tree_list|].
    intros c' e' [?|(r & ? & _)]%IH; eauto.
Qed.

Lemma StronglySorted_filter {A} (R : relation A) (P : A -> Prop) `{!forall x, Decision (P x)} l :
  StronglySorted R l -> StronglySorted R (filter P l).
Proof.
  induction 1 as [|x l Hs IH Hall]; [constructor|].
  rewrite filter_cons. case_decide; [|done]. constructor; [done|].
  apply Forall_forall. intros y [? ?]%list_elem_of_filter. 
  rewrite Forall_forall in Hall. auto.
Qed.

Lemma descending_strict l :
  NoDup (priority <$> l) -> StronglySorted descending l ->
  StronglySorted strictly_descending l.
Proof.
  induction l as [|x l IH]; [constructor|].
  rewrite fmap_cons. intros [Hx Hnd]%NoDup_cons Hs. 
  apply StronglySorted_inv in Hs as [Hs Hall]. constructor; [auto|].
  rewrite Forall_forall in Hall |- *. intros y Hy. specialize (Hall y Hy).
  unfold descending, strictly_descending in *.
  destruct (decide (priority y = priority x)) as [Heq|]; [|lia].
  exfalso. apply Hx. rewrite <- Heq. by apply list_elem_of_fmap_2.
Qed.

Lemma forallb_false_exists {A} (f : A -> bool) l :
  forallb f l = false -> exists x, x ∈ l /\ f x = false.
Proof.
  induction l as [|x l IH]; simpl; [done|].
  destruct (f x) eqn:Hx; simpl.
  - intros (y & ? & ?)%IH. exists y. split; [by right|done].
  - intros _. exists x. split; [by left|done].
Qed.

(** C4, as amended: for a schema whose one constrained requirement is
    satisfied by registered providers of pairwise distinct priorities
    p1 > ... > pN.  When the own [build_tree] of one of them ends in an
    error other than [DependencyError], [build_tree] raises
    [RecursionError]: that is the only such error, and the candidate
    loop does not catch it.  Otherwise [build_tree] produces a choice
    node whose candidates are, in descending priority order, those of
    the N providers whose own [build_tree] succeeds, all of p1..pN when
    every one of them builds; when none builds it raises
    [DependencyError] instead. *)
Theorem build_tree_candidates_by_priority subclasses limit c before r after :
  let self := DependencyResolver__init subclasses in
  let satisfying := filter (fun p => satisfies p r = true) (providers_cache self) in
  let built :=
    filter (fun p => builds (build_tree limit self (as_configurable p)) = true) satisfying in
  let all_settle :=
    forallb (fun p => settles (build_tree limit self (as_configurable p))) satisfying in
  get_schema c = before ++ r :: after ->
  Forall unconstrained before -> Forall unconstrained after ->
  constraint_interface r = true ->
  StronglySorted descending built /\
  (NoDup (priority <$> satisfying) -> StronglySorted strictly_descending built) /\
  (all_settle = false -> build_tree (S limit) self c = Raise RecursionError) /\
  (all_settle = true -> built = [] ->
   build_tree (S limit) self c = Raise (DependencyError r)) /\
  (all_settle = true -> built ≠ [] ->
   exists candidates,
     build_tree (S limit) self c =
       Return (RequirementTreeList
                 (map RequirementTreeReq before ++
                  RequirementTreeChoice r candidates :: map RequirementTreeReq after)) /\
     candidates.*1 = built /\
     (forall p t, (p, t) ∈ candidates ->
                  build_tree limit self (as_configurable p) = Return t)).
Proof.
  intros self satisfying built all_settle Hschema Hbefore Hafter Hr.
  assert (Hsorted : StronglySorted descending built).
  { unfold built, satisfying. do 2 apply StronglySorted_filter.
    apply providers_cache_sorted. }
  split; [done|]. split.
  { intros Hnd. apply descending_strict; [|done].
    eapply sublist_NoDup; [exact Hnd|]. apply fmap_sublist, sublist_filter. }
  split.
  { intros (p & Hp & Hset)%forallb_false_exists.
    apply list_elem_of_filter in Hp as [Hsat Hp].
    simpl. rewrite Hschema, schema_loop_leaves by done. simpl. rewrite Hr. simpl.
    fold self. rewrite scan_providers_aborts; [done| |by exists p].
    intros c' e' [?|(r' & ? & _)]%build_tree_raises; eauto. }
  assert (Hboth : all_settle = true ->
    exists found,
      found.*1 = built /\
      (forall p t, (p, t) ∈ found -> build_tree limit self (as_configurable p) = Return t) /\
      build_tree (S limit) self c =
        match found with
        | [] => Raise (DependencyError r)
        | _ :: _ => Return (RequirementTreeList
                     (map RequirementTreeReq before ++
                      RequirementTreeChoice r found :: map RequirementTreeReq after))
        end).
  { intros Hset.
    assert (Hbuilt : built = filter (fun p => usable (build_tree limit self) r p = true)
                                    (providers_cache self)).
    { unfold built, satisfying, usable. rewrite list_filter_filter.
      apply list_filter_iff. intros p. rewrite andb_true_iff. tauto. }
    destruct (scan_providers_run (build_tree limit self) r (providers_cache self) [] false)
      as (found & Hscan & Hkeys & Hrecs).
    { apply providers_cache_NoDup. }
    { intros p _ Hin. by apply elem_of_nil in Hin. }
    { intros p Hp Hsat. unfold all_settle in Hset. rewrite forallb_forall in Hset.
      apply Hset. apply list_elem_of_In. unfold satisfying. by apply list_elem_of_filter. }
    rewrite <- Hbuilt in Hkeys. simpl in Hscan.
    exists found. split; [done|]. split; [done|].
    simpl. rewrite Hschema, schema_loop_leaves by done. simpl. rewrite Hr. simpl.
    fold self. rewrite Hscan. destruct found as [|pc found]; [done|]. simpl.
    rewrite RequirementTreeChoice__init_built.
    - rewrite schema_loop_leaves_end by done. by rewrite <- app_assoc.
    - intros p t Hin. eapply build_tree_list, Hrecs, Hin. }
  split.
  - intros (found & Hkeys & _ & Hrun)%Hboth Hnil. rewrite Hrun.
    rewrite Hnil in Hkeys. by destruct found.
  - intros (found & Hkeys & Hrecs & Hrun)%Hboth Hne. exists found. rewrite Hrun.
    split; [|done]. destruct found; [|done]. by rewrite <- Hkeys in Hne.
Qed.

(** C4 as first stated fails: three registered providers, of priorities
    30 > 10 > 5, satisfy [memory], but the own build of the first ends in
    [DependencyError], and at no depth does the build of [X] give a choice
    with all three as candidates. *)
Lemma failed_build_drops_candidate :
  filter (fun p => satisfies p Sample.memory = true) (providers_cache Sample.registry)
  = [Sample.BrokenLayer; Sample.LinuxLayer; Sample.GenericLayer] /\
  ~ exists limit candidates,
      build_tree limit Sample.registry Sample.X =
        Return (RequirementTreeList
                  [RequirementTreeReq (Sample.plain "verbose" true);
                   RequirementTreeChoice Sample.memory candidates]) /\
      candidates.*1 = [Sample.BrokenLayer; Sample.LinuxLayer; Sample.GenericLayer].
Proof.
  split; [by vm_compute|].
  intros (limit & candidates & Hbuild & Hkeys).
  destruct limit as [|[|limit]]; vm_compute in Hbuild; try discriminate Hbuild.
  injection Hbuild as <-. discriminate Hkeys.
Qed.

(** On the sample registry the candidates for [memory] are the two
    providers that build, the higher priority first. *)
Lemma build_tree_candidates_by_priority_witness :
  exists candidates,
    build_tree 3 Sample.registry Sample.X =
      Return (RequirementTreeList
                [RequirementTreeReq (Sample.plain "verbose" true);
                 RequirementTreeChoice Sample.memory candidates]) /\
    candidates.*1 = [Sample.LinuxLayer; Sample.GenericLayer].
Proof.
  destruct (build_tree_candidates_by_priority
              [Sample.LinuxLayer; Sample.WindowsLayer; Sample.GenericLayer;
               Sample.BareLayer; Sample.BrokenLayer]
              2 Sample.X [Sample.plain "verbose" true] Sample.memory [])
    as (_ & _ & _ & _ & Hsome).
  - reflexivity.
  - repeat constructor.
  - constructor.
  - reflexivity.
  - destruct Hsome as (candidates & Hbuild & Hkeys & _).
    + vm_compute. reflexivity.
    + vm_compute. discriminate.
    + exists candidates. split; [exact Hbuild|]. rewrite Hkeys. vm_compute. reflexivity.
Defined.

(** Two registered providers satisfy the requirement and the one of
    higher priority builds, yet the other requires itself and the build
    ends in [RecursionError] at every limit tried. *)
Example looping_candidate_aborts_build :
  map priority (filter (fun p => satisfies p (Sample.needs_os "memory" false "bsd") = true)
                       (providers_cache Cases.mixed_registry)) = [2; 1]%Z /\
  builds (build_tree 1 Cases.mixed_registry (as_configurable Cases.BsdLayer)) = true /\
  forallb (fun limit =>
             match build_tree limit Cases.mixed_registry Cases.on_bsd with
             | Raise RecursionError => true
             | _ => false
             end)
          [1; 2; 3; 8; 14] = true.
Proof. by vm_compute. Qed.

(** ** Runtime validation and the visitors *)

Lemma RequirementTreeNode_nested_ind (P : RequirementTreeNode -> Prop) :
  (forall r, P (RequirementTreeReq r)) ->
  (forall r candidates, Forall (fun pc => P pc.2) candidates ->
                        P (RequirementTreeChoice r candidates)) ->
  (forall children, Forall P children -> P (RequirementTreeList children)) ->
  forall node, P node.
Proof.
  intros Hreq Hchoice Hlist.
  fix IH 1. intros [r|r candidates|children].
  - apply Hreq.
  - apply Hchoice. induction candidates as [|[p t] l IHl]; constructor; [apply IH|apply IHl].
  - apply Hlist. induction children as [|t l IHl]; constructor; [apply IH|apply IHl].
Qed.

Section runtime_facts.
Context {Ctx Value : Type}.
Variable CONFIG_SEPARATOR : string.
Variable config_read : Ctx -> string -> outcome Value.
Variable requirement_validate : Requirement -> Value -> Ctx -> option exn.
Variable provider_fulfill : Provider -> Ctx -> Requirement -> string -> Ctx * option exn.
Variable context_Context : Ctx -> option bool.

Local Abbreviation validate :=
  (validate_dependencies CONFIG_SEPARATOR config_read requirement_validate provider_fulfill).
Local Abbreviation children_loop :=
  (validate_children CONFIG_SEPARATOR config_read requirement_validate provider_fulfill
     validate).
Local Abbreviation check := (value_check config_read requirement_validate).
Local Abbreviation select := (select_candidate provider_fulfill validate).
Local Abbreviation fulfill := (call_fulfill provider_fulfill).
Local Abbreviation node_step :=
  (validate_node CONFIG_SEPARATOR config_read requirement_validate provider_fulfill
     validate).
Local Abbreviation check_fails := (check_fails config_read requirement_validate).
Local Abbreviation candidates_fail :=
  (candidates_fail CONFIG_SEPARATOR config_read requirement_validate provider_fulfill).
Local Abbreviation escapes := (escapes provider_fulfill).

Lemma value_check_returns requirement node_path st :
  exists st',
    check requirement node_path st =
      (st', Return (negb (check_fails (context st) requirement node_path)
                    || optional requirement)) /\
    context st' = context st.
Proof.
  unfold value_check, try_except, read_config, call_validate, bind, log, check_fails.
  simpl. destruct (config_read (context st) node_path) as [v|e]; simpl.
  - destruct (requirement_validate requirement v (context st)); simpl.
    + destruct (optional requirement); simpl; eauto.
    + eauto.
  - destruct (optional requirement); simpl; eauto.
Qed.

Lemma validate_children_app path l1 l2 st :
  children_loop path (l1 ++ l2) st =
  match children_loop path l1 st with
  | (st', Return true) => children_loop path l2 st'
  | other => other
  end.
Proof.
  revert st. induction l1 as [|node l1 IH]; intros st; simpl; [done|].
  unfold bind.
  destruct (validate_node _ _ _ _ _ _ _ st) as [st' [[]|e]]; [apply IH|done..].
Qed.

Lemma validate_list children path st :
  validate (RequirementTreeList children) (Some path) st = children_loop path children st.
Proof. done. Qed.

Lemma select_candidate_first requirement node_path pre p subtree post st0 st1 st2 :
  candidates_fail node_path pre st0 = Some st1 ->
  validate subtree (Some node_path) st1 = (st2, Return true) ->
  select requirement node_path (pre ++ (p, subtree) :: post) st0 =
  bind (fulfill p requirement node_path) (fun _ => ret true) st2.
Proof.
  revert st0. induction pre as [|[q t] pre IH]; intros st0; simpl.
  - intros [= ->] Hsub. unfold bind at 1. by rewrite Hsub.
  - destruct (validate t (Some node_path) st0) as [st' [[]|e]] eqn:Ht; try done.
    intros Hpre Hsub. unfold bind at 1. rewrite Ht. by apply IH.
Qed.

Lemma select_candidate_none requirement node_path candidates st0 st1 :
  candidates_fail node_path candidates st0 = Some st1 ->
  select requirement node_path candidates st0 = (st1, Return false).
Proof.
  revert st0. induction candidates as [|[q t] l IH]; intros st0; simpl.
  - by intros [= ->].
  - destruct (validate t (Some node_path) st0) as [st' [[]|e]] eqn:Ht; try done.
    intros Hl. unfold bind. rewrite Ht. by apply IH.
Qed.

Lemma call_fulfill_trace p requirement node_path st :
  exists st' res,
    fulfill p requirement node_path st = (st', res) /\
    trace st' = trace st ++ [CallFulfill p requirement node_path] /\
    context st' = (provider_fulfill p (context st) requirement node_path).1.
Proof.
  unfold call_fulfill, bind, log. simpl.
  destruct (provider_fulfill p (context st) requirement node_path) as [c o]; simpl.
  eauto.
Qed.

Lemma commit_first_valid path before requirement pre p subtree post after st st0 st1 st2 :
  let node_path := path +:+ CONFIG_SEPARATOR +:+ name requirement in
  optional requirement = false ->
  children_loop path before st = (st0, Return true) ->
  candidates_fail node_path pre st0 = Some st1 ->
  validate subtree (Some node_path) st1 = (st2, Return true) ->
  validate (RequirementTreeList
              (before ++ RequirementTreeChoice requirement (pre ++ (p, subtree) :: post)
                      :: after)) (Some path) st =
  bind (fulfill p requirement node_path)
       (fun _ => bind (check requirement node_path)
                   (fun ok => if ok then children_loop path after else ret false)) st2.
Proof.
  intros node_path Hopt Hbefore Hpre Hsub.
  rewrite validate_list, validate_children_app, Hbefore. simpl.
  unfold validate_node, node_requirement, select_branch. rewrite Hopt. simpl.
  unfold bind at 1 2 3, ret at 1. fold node_path.
  rewrite (select_candidate_first _ _ _ _ _ _ _ _ _ Hpre Hsub).
  unfold bind, ret.
  destruct (fulfill p requirement node_path st2) as [st3 [[]|e]]; done.
Qed.

Lemma no_candidate_fails path before requirement candidates after st st0 st1 :
  let node_path := path +:+ CONFIG_SEPARATOR +:+ name requirement in
  optional requirement = false ->
  children_loop path before st = (st0, Return true) ->
  candidates_fail node_path candidates st0 = Some st1 ->
  validate (RequirementTreeList
              (before ++ RequirementTreeChoice requirement candidates :: after))
           (Some path) st = (st1, Return false).
Proof.
  intros node_path Hopt Hbefore Hall.
  rewrite validate_list, validate_children_app, Hbefore. simpl.
  unfold validate_node, node_requirement, select_branch. rewrite Hopt. simpl.
  unfold bind at 1 2 3, ret at 1. fold node_path.
  by rewrite (select_candidate_none _ _ _ _ _ Hall).
Qed.

Lemma failed_check path before node requirement after st st0 st1 :
  let node_path := path +:+ CONFIG_SEPARATOR +:+ name requirement in
  requirement_of node = Some requirement ->
  children_loop path before st = (st0, Return true) ->
  select_branch provider_fulfill validate node_path node st0 = (st1, Return true) ->
  check_fails (context st1) requirement node_path = true ->
  exists st2,
    check requirement node_path st1 = (st2, Return (optional requirement)) /\
    context st2 = context st1 /\
    validate (RequirementTreeList (before ++ node :: after)) (Some path) st =
      if optional requirement then children_loop path after st2
      else (st2, Return false).
Proof.
  intros node_path Hreq Hbefore Hsel Hfail.
  destruct (value_check_returns requirement node_path st1) as (st2 & Hcheck & Hctx).
  rewrite Hfail in Hcheck. simpl in Hcheck. exists st2. split; [done|]. split; [done|].
  rewrite validate_list, validate_children_app, Hbefore. simpl.
  unfold validate_node.
  assert (Hnode : node_requirement node st0 = (st0, Return requirement))
    by (destruct node; simplify_eq/=; done).
  unfold bind at 1 2. rewrite Hnode. fold node_path. unfold bind at 1. rewrite Hsel.
  rewrite Hcheck. by destruct (optional requirement).
Qed.

Lemma call_fulfill_raises p requirement node_path st st' e :
  fulfill p requirement node_path st = (st', Raise e) -> escapes e.
Proof.
  unfold call_fulfill, bind, log. simpl.
  destruct (provider_fulfill p (context st) requirement node_path) as [c [e'|]] eqn:Hf;
    [|done].
  intros [= _ <-]. right. exists p, (context st), requirement, node_path.
  by rewrite Hf.
Qed.

Lemma validate_node_raises node :
  (forall path st st' e, validate node path st = (st', Raise e) -> escapes e) /\
  (forall path st st' e,
     validate_node CONFIG_SEPARATOR config_read requirement_validate provider_fulfill
       validate path node st = (st', Raise e) -> escapes e).
Proof.
  induction node as [r|r candidates IH|children IH] using RequirementTreeNode_nested_ind.
  - split; intros path st st' e.
    + intros [= _ <-]. left. eauto.
    + unfold validate_node. simpl. unfold bind, ret.
      destruct (value_check_returns r (path +:+ CONFIG_SEPARATOR +:+ name r) st)
        as (st2 & -> & _).
      done.
  - split; intros path st st' e.
    + intros [= _ <-]. left. eauto.
    + unfold validate_node. simpl. unfold bind at 1 2, ret at 1.
      destruct (optional r); simpl.
      * unfold ret.
        destruct (value_check_returns r (path +:+ CONFIG_SEPARATOR +:+ name r) st)
          as (st2 & -> & _).
        done.
      * destruct (select r _ candidates st) as [st2 [[]|e2]] eqn:Hsel.
        -- destruct (value_check_returns r (path +:+ CONFIG_SEPARATOR +:+ name r) st2)
             as (st3 & -> & _).
           done.
        -- done.
        -- intros [= _ <-]. revert st Hsel.
           induction IH as [|[p t] l [Ht _] _ IHl]; intros st; simpl; [done|].
           unfold bind at 1.
           destruct (validate t _ st) as [st4 [[]|e4]] eqn:Hsub.
           ++ unfold bind at 1.
              destruct (fulfill p r _ st4) as [st5 [[]|e5]] eqn:Hf; [done|].
              intros [= _ <-]. by eapply call_fulfill_raises.
           ++ apply IHl.
           ++ intros [= _ <-]. by eapply Ht.
  - split; intros path st st' e.
    + simpl. generalize (match path with Some p => p | None => "" end). clear path.
      intros path. revert st.
      induction IH as [|node children [_ Hnode] _ IHchildren]; intros st; simpl; [done|].
      unfold bind at 1.
      destruct (validate_node _ _ _ _ _ _ node st) as [st1 [[]|e1]] eqn:Hstep.
      * apply IHchildren.
      * done.
      * intros [= _ <-]. by eapply Hnode.
    + intros [= _ <-]. left. eauto.
Qed.

Lemma validate_raises node path st st' e :
  validate node path st = (st', Raise e) -> escapes e.
Proof. apply validate_node_raises. Qed.

Lemma accept_list_apply (visitor : TreeVisitor Ctx) children st st1 :
  children ≠ [] ->
  call_visit_enter visitor (RequirementTreeList children) st = (st1, Return true) ->
  accept (RequirementTreeList children) visitor st = (st1, Raise (AttributeError "apply")).
Proof.
  intros Hne Henter. unfold accept, accept_body, bind. rewrite Henter.
  destruct children as [|candidate rest]; [done|]. done.
Qed.

Lemma accept_choice_apply (visitor : TreeVisitor Ctx) r candidates st st1 :
  candidates ≠ [] ->
  call_visit_enter visitor (RequirementTreeChoice r candidates) st = (st1, Return true) ->
  accept (RequirementTreeChoice r candidates) visitor st =
    (st1, Raise (AttributeError "apply")).
Proof.
  intros Hne Henter. unfold accept, accept_body, bind. rewrite Henter.
  destruct candidates as [|[p t] rest]; [done|]. done.
Qed.

Lemma traverse_spec_stops (visitor : TreeVisitor Ctx) first rest st st1 st2 :
  let node := RequirementTreeList (first :: rest) in
  call_visit_enter visitor node st = (st1, Return true) ->
  traverse_spec first visitor st1 = (st2, Return false) ->
  traverse_spec node visitor st = call_visit_leave visitor node st2.
Proof.
  intros node Henter Hfirst. simpl. unfold bind at 1. fold node. rewrite Henter.
  unfold bind at 1 2. rewrite Hfirst. done.
Qed.

Lemma traverse_spec_continues (visitor : TreeVisitor Ctx) first rest st st1 st2 :
  let node := RequirementTreeList (first :: rest) in
  call_visit_enter visitor node st = (st1, Return true) ->
  traverse_spec first visitor st1 = (st2, Return true) ->
  traverse_spec node visitor st =
    bind (each_child traverse_spec visitor rest)
         (fun _ => call_visit_leave visitor node) st2.
Proof.
  intros node Henter Hfirst. simpl. unfold bind at 1. fold node. rewrite Henter.
  unfold bind at 1 2. rewrite Hfirst. done.
Qed.

Local Abbreviation visitor_init :=
  (ValidateDependenciesVisitor__init config_read requirement_validate context_Context).
Local Abbreviation visitor_instance :=
  (ValidateDependenciesVisitor_instance config_read requirement_validate).

Lemma ValidateDependenciesVisitor__init_inv node_path st st' visitor :
  visitor_init node_path st = (st', Return visitor) ->
  st' = st /\ context_Context (context st) = Some true /\
  visitor = visitor_instance (default "" node_path).
Proof.
  unfold ValidateDependenciesVisitor__init.
  destruct (context_Context (context st)) as [[]|]; simpl; [|done..].
  intros [= <- <-]. by destruct node_path.
Qed.

Lemma ValidateDependenciesVisitor__init_raises node_path st :
  context_Context (context st) = None ->
  visitor_init node_path st = (st, Raise (AttributeError "Context")).
Proof. unfold ValidateDependenciesVisitor__init. by intros ->. Qed.

Lemma visit_list_raises self_node_path children st :
  exists st',
    ValidateDependenciesVisitor_visit config_read requirement_validate self_node_path
      (RequirementTreeList children) st = (st', Raise (AttributeError "requirement")).
Proof.
  unfold ValidateDependenciesVisitor_visit, try_except, read_config, bind, log. simpl.
  destruct (config_read (context st) self_node_path); simpl; eauto.
Qed.

Lemma accept_list_raises self_node_path children st :
  exists st' attribute,
    accept (RequirementTreeList children) (visitor_instance self_node_path) st =
      (st', Raise (AttributeError attribute)).
Proof.
  destruct children as [|candidate rest].
  - unfold accept, accept_body, call_visit_enter, call_visit_leave, bind, log. simpl.
    edestruct visit_list_raises as [st' ->]. eauto.
  - erewrite accept_list_apply; [eauto|done|]. done.
Qed.

Lemma validate_returns_list node path st st' b :
  validate node path st = (st', Return b) -> is_list_node node = true.
Proof. by destruct node. Qed.

(** C9: the direct validator and the visitor-based one are not
    interchangeable.  [validate_dependencies] returns a boolean on list
    nodes only, and on a list node the traversal with a
    [ValidateDependenciesVisitor] always ends in an [AttributeError] (the
    children are handed on through an [apply] that no class defines, and
    the visitor's [visit] reads [node.requirement], which a list node
    lacks): on no tree, path and states do both return a boolean,
    whatever visitor the constructor returned, if it returned one at
    all. *)
Theorem validators_disagree node path node_path st st' st'' :
  ~ exists visitor st0 st1 st2 b b',
      visitor_init node_path st' = (st0, Return visitor) /\
      validate node path st = (st1, Return b) /\
      accept node visitor st'' = (st2, Return b').
Proof.
  intros (visitor & st0 & st1 & st2 & b & b' & Hi & Hv & Ha).
  apply ValidateDependenciesVisitor__init_inv in Hi as (_ & _ & ->).
  apply validate_returns_list in Hv. destruct node as [| |children]; try done.
  destruct (accept_list_raises (default "" node_path) children st'') as (? & ? & Hr).
  congruence.
Qed.

Lemma call_fulfill_returns p requirement node_path st :
  (forall p ctx r np, (provider_fulfill p ctx r np).2 = None) ->
  exists st', fulfill p requirement node_path st = (st', Return tt).
Proof.
  intros Hquiet. unfold call_fulfill, bind, log. simpl.
  specialize (Hquiet p (context st) requirement node_path).
  destruct (provider_fulfill p (context st) requirement node_path) as [c o].
  simpl in Hquiet. subst o. eauto.
Qed.

Lemma validate_node_total node :
  (forall p ctx r np, (provider_fulfill p ctx r np).2 = None) ->
  (well_formed node = true ->
   forall path st, exists st' b, validate node path st = (st', Return b)) /\
  (well_formed_child node = true ->
   forall path st, exists st' b, node_step path node st = (st', Return b)).
Proof.
  intros Hquiet.
  induction node as [r|r candidates IH|children IH] using RequirementTreeNode_nested_ind.
  - split; [done|]. intros _ path st. unfold validate_node. simpl. unfold bind, ret.
    destruct (value_check_returns r (path +:+ CONFIG_SEPARATOR +:+ name r) st)
      as (st2 & -> & _).
    eauto.
  - split; [done|]. simpl. intros Hwf path st.
    unfold validate_node. simpl. unfold bind at 1 2, ret at 1.
    assert (Hsel : forall st, exists st2 b,
               (if negb (optional r)
                then select r (path +:+ CONFIG_SEPARATOR +:+ name r) candidates
                else ret true) st = (st2, Return b)).
    { destruct (optional r); simpl; [unfold ret; eauto|].
      induction IH as [|[p t] l [Ht _] _ IHl]; intros st'; simpl; [unfold ret; eauto|].
      simpl in Hwf. apply andb_true_iff in Hwf as [Hwt Hwl]. simpl in Ht.
      unfold bind at 1.
      destruct (Ht Hwt (Some (path +:+ CONFIG_SEPARATOR +:+ name r)) st')
        as (st2 & [] & ->).
      - unfold bind, ret.
        destruct (call_fulfill_returns p r (path +:+ CONFIG_SEPARATOR +:+ name r) st2 Hquiet)
          as (st3 & ->).
        eauto.
      - by apply IHl. }
    destruct (Hsel st) as (st2 & [] & ->).
    + destruct (value_check_returns r (path +:+ CONFIG_SEPARATOR +:+ name r) st2)
        as (st3 & -> & _).
      eauto.
    + unfold ret. eauto.
  - split; [|done]. intros Hwf path st. simpl.
    generalize (match path with Some p => p | None => "" end). clear path.
    intros path. change (forallb well_formed_child children = true) in Hwf.
    revert st. induction IH as [|node children [_ Hnode] _ IHchildren]; intros st; simpl.
    + unfold ret. eauto.
    + simpl in Hwf. apply andb_true_iff in Hwf as [Hw Hws].
      unfold bind. destruct (Hnode Hw path st) as (st2 & [] & ->).
      * by apply IHchildren.
      * unfold ret. eauto.
Qed.

(** C3: on a tree with a non-optional choice node whose earlier
    siblings pass, [validate_dependencies] tries the node's candidates in
    their stored order; it calls [fulfill] once, for the first candidate
    whose subtree validates, and goes on from there to the node's value
    check and the later siblings without trying another candidate; when
    no candidate's subtree validates it returns [False] at once. *)
Theorem validate_commits_first_valid_candidate
    path before requirement candidates after st st0 :
  let node_path := path +:+ CONFIG_SEPARATOR +:+ name requirement in
  let deptree :=
    RequirementTreeList (before ++ RequirementTreeChoice requirement candidates :: after) in
  optional requirement = false ->
  children_loop path before st = (st0, Return true) ->
  (forall pre p subtree post st1 st2,
     candidates = pre ++ (p, subtree) :: post ->
     candidates_fail node_path pre st0 = Some st1 ->
     validate subtree (Some node_path) st1 = (st2, Return true) ->
     validate deptree (Some path) st =
       bind (fulfill p requirement node_path)
            (fun _ => bind (check requirement node_path)
                        (fun ok => if ok then children_loop path after else ret false))
            st2 /\
     exists st3 res,
       fulfill p requirement node_path st2 = (st3, res) /\
       trace st3 = trace st2 ++ [CallFulfill p requirement node_path]) /\
  (forall st1,
     candidates_fail node_path candidates st0 = Some st1 ->
     validate deptree (Some path) st = (st1, Return false)).
Proof.
  intros node_path deptree Hopt Hbefore. split.
  - intros pre p subtree post st1 st2 -> Hpre Hsub. split.
    + by eapply commit_first_valid.
    + destruct (call_fulfill_trace p requirement node_path st2) as (st3 & res & ? & ? & _).
      eauto.
  - intros st1 Hall. by eapply no_candidate_fails.
Qed.

(** C5: a failure raised while the stored value is read or while the
    requirement's own [validate] runs is caught at the node: the value
    check never raises; for an optional requirement the failure is
    swallowed and the node passes, for any other the whole validation
    returns [False] and the later siblings are not processed.  An
    exception that does leave [validate_dependencies] is an
    [AttributeError] of an ill-shaped tree or comes from
    [provider.fulfill]; on a tree of the builder's shape, with a
    [fulfill] that does not raise, a boolean is returned whatever the
    store and the requirements raise. *)
Theorem validate_catches_value_failures :
  (forall requirement node_path st,
     exists st',
       check requirement node_path st =
         (st', Return (negb (check_fails (context st) requirement node_path)
                       || optional requirement)) /\
       context st' = context st) /\
  (forall path before node requirement after st st0 st1,
     let node_path := path +:+ CONFIG_SEPARATOR +:+ name requirement in
     requirement_of node = Some requirement ->
     children_loop path before st = (st0, Return true) ->
     select_branch provider_fulfill validate node_path node st0 = (st1, Return true) ->
     check_fails (context st1) requirement node_path = true ->
     exists st2,
       check requirement node_path st1 = (st2, Return (optional requirement)) /\
       context st2 = context st1 /\
       validate (RequirementTreeList (before ++ node :: after)) (Some path) st =
         if optional requirement then children_loop path after st2
         else (st2, Return false)) /\
  (forall node path st st' e, validate node path st = (st', Raise e) -> escapes e) /\
  (forall node path st,
     (forall p ctx r np, (provider_fulfill p ctx r np).2 = None) ->
     well_formed node = true ->
     exists st' b, validate node path st = (st', Return b)).
Proof.
  split; [apply value_check_returns|]. split; [apply failed_check|].
  split; [apply validate_raises|].
  intros node path st Hquiet Hwf. by apply validate_node_total.
Qed.

(** C8: [RequirementTreeList.accept] does not visit the children of a
    list node: once [visit_enter] has said to go on, the first child is
    asked for an [apply] method, which no class has, and the traversal
    ends there in an [AttributeError], before any child is visited and
    without the list's own [visit_leave]. *)
Theorem accept_list_raises_on_apply (visitor : TreeVisitor Ctx) children st st1 :
  children ≠ [] ->
  call_visit_enter visitor (RequirementTreeList children) st = (st1, Return true) ->
  accept (RequirementTreeList children) visitor st = (st1, Raise (AttributeError "apply")).
Proof. apply accept_list_apply. Qed.
End runtime_facts.

(** C10: with [candidates] left at [None], [RequirementTreeChoice.__init__]
    fails: for a requirement that passes the check of
    [RequirementTreeReq.__init__], with the [TypeError] of iterating
    [None]; in no case is the fallback to an empty map reached.  A choice
    node that was constructed holds the mapping it was given. *)
Theorem RequirementTreeChoice__init_rejects_None :
(forall r, RequirementTreeChoice__init (Some r) None =
           Raise (TypeError "'NoneType' object is not iterable")) /\
(forall requirement, builds (RequirementTreeChoice__init requirement None) = false) /\
(forall requirement candidates node,
   RequirementTreeChoice__init requirement candidates = Return node ->
   exists r od, requirement = Some r /\ candidates = Some od /\
                node = RequirementTreeChoice r od).
Proof.
split; [done|]. split; [by intros []|].
intros [r|] [od|] node; try done.
intros H. destruct (RequirementTreeChoice__init_inv r od _ H) as [[= ->]|[m [=]]]. eauto.
Qed.

(** On an empty store [LinuxLayer] is tried and fails on its missing
    path, [GenericLayer] is committed, [WindowsLayer] is never tried, and
    the missing non-optional [tail] then fails the validation. *)
Lemma validate_commits_first_valid_candidate_witness :
  validate_dependencies "." Sample.store_read Sample.nonblank Sample.record_choice
    Sample.three_way (Some "") Sample.start =
  (mkState {[ ".memory" := "GenericLayer" ]}
     [ReadConfig ".verbose"; ReadConfig ".memory.path";
      CallFulfill Sample.GenericLayer Sample.memory ".memory";
      ReadConfig ".memory"; CallValidate Sample.memory ".memory";
      ReadConfig ".tail"],
   Return false).
Proof.
  destruct (validate_commits_first_valid_candidate
              "." Sample.store_read Sample.nonblank Sample.record_choice
              "" [RequirementTreeReq (Sample.plain "verbose" true)] Sample.memory
              [(Sample.LinuxLayer, Sample.linux_subtree);
               (Sample.GenericLayer, RequirementTreeList []);
               (Sample.WindowsLayer, RequirementTreeList [])]
              [RequirementTreeReq (Sample.plain "tail" false)]
              Sample.start (mkState ∅ [ReadConfig ".verbose"]))
    as [Hfirst _].
  - reflexivity.
  - vm_compute; reflexivity.
  - destruct (Hfirst [(Sample.LinuxLayer, Sample.linux_subtree)] Sample.GenericLayer
                     (RequirementTreeList [])
                     [(Sample.WindowsLayer, RequirementTreeList [])]
                     (mkState ∅ [ReadConfig ".verbose"; ReadConfig ".memory.path"])
                     (mkState ∅ [ReadConfig ".verbose"; ReadConfig ".memory.path"]))
      as [Hrun _].
    + reflexivity.
    + vm_compute; reflexivity.
    + vm_compute; reflexivity.
    + etransitivity; [exact Hrun|]. vm_compute; reflexivity.
Defined.

(** The optional [a] is missing and passes; the non-optional [b] is
    missing and stops the loop before [c]. *)
Example validate_stops_at_failed_leaf :
  validate_dependencies "." Sample.store_read Sample.nonblank Sample.record_choice
    (RequirementTreeList
       [RequirementTreeReq (Sample.plain "a" true);
        RequirementTreeReq (Sample.plain "b" false);
        RequirementTreeReq (Sample.plain "c" false)])
    None Sample.start =
  (mkState ∅ [ReadConfig ".a"; ReadConfig ".b"], Return false).
Proof. by vm_compute. Qed.

(** Only the list's own [visit_enter] has run when the traversal of
    [A; B; C] ends. *)
Lemma accept_list_raises_on_apply_witness :
  accept (RequirementTreeList [Sample.A; Sample.B; Sample.C]) Sample.stop_on_empty
    Sample.start =
  (mkState ∅ [VisitEnter (RequirementTreeList [Sample.A; Sample.B; Sample.C])],
   Raise (AttributeError "apply")).
Proof.
  apply (accept_list_raises_on_apply Sample.stop_on_empty
           [Sample.A; Sample.B; Sample.C] Sample.start).
  - discriminate.
  - reflexivity.
Defined.

(** With the children handed on through [accept], [A]'s [visit_leave]
    returns [False] and neither [B] nor [C] is visited. *)
Example traverse_spec_skips_siblings :
  traverse_spec (RequirementTreeList [Sample.A; Sample.B; Sample.C]) Sample.stop_on_empty
    Sample.start =
  (mkState ∅ [VisitEnter (RequirementTreeList [Sample.A; Sample.B; Sample.C]);
              VisitEnter Sample.A; VisitLeave Sample.A;
              VisitLeave (RequirementTreeList [Sample.A; Sample.B; Sample.C])],
   Return true).
Proof. by vm_compute. Qed.

(** A one-leaf tree with a valid stored value: the validator returns
    [True]; the visitor cannot be constructed on a context that has no
    [Context] attribute, and on one that has it the traversal raises. *)
Example validators_disagree_on_a_leaf_list :
  let deptree := RequirementTreeList [RequirementTreeReq (Sample.plain "a" false)] in
  let st := mkState ({[ ".a" := "1" ]} : gmap string string) [] in
  validate_dependencies "." Sample.store_read Sample.nonblank Sample.record_choice
    deptree (Some "") st =
  (mkState {[ ".a" := "1" ]} [ReadConfig ".a"; CallValidate (Sample.plain "a" false) ".a"],
   Return true) /\
  bind (ValidateDependenciesVisitor__init Sample.store_read Sample.nonblank
          Sample.no_Context (Some ""))
       (fun visitor => accept deptree visitor) st =
  (mkState {[ ".a" := "1" ]} [], Raise (AttributeError "Context")) /\
  bind (ValidateDependenciesVisitor__init Sample.store_read Sample.nonblank
          Cases.own_Context (Some ""))
       (fun visitor => accept deptree visitor) st =
  (mkState {[ ".a" := "1" ]} [VisitEnter deptree], Raise (AttributeError "apply")).
Proof. by vm_compute. Qed.


(** * Further facts *)

(** ** The tree builder *)

Lemma schema_loop_mono rec rec' self schema deptree res :
  (forall c res, rec c = res -> settles res = true -> rec' c = res) ->
  (forall c t, rec c = Return t -> is_list_node t = true) ->
  schema_loop rec self schema deptree = res -> settles res = true ->
  schema_loop rec' self schema deptree = res.
Proof.
  intros Hmono Hlist. revert deptree.
  induction schema as [|q schema IH]; intros deptree; simpl; [done|].
  destruct (constraint_interface q); simpl; [|by apply IH].
  destruct (scan_providers rec _ _ _ _) as [[c s]|e'] eqn:Hscan.
  - rewrite <- (scan_providers_ext rec rec'), Hscan.
    + destruct s; simpl; [|done]. destruct c as [|pc c]; [by apply IH|].
      rewrite (scan_candidates_init _ _ Hlist _ _ _ Hscan). by apply IH.
    + intros p Hp Hsat. symmetry. apply Hmono; [done|].
      by eapply scan_providers_settled.
  - intros <- Hset. exfalso. destruct e'; try done.
    by apply scan_providers_never_dependency_error in Hscan.
Qed.

Lemma build_tree_step_mono limit self c res :
  build_tree limit self c = res -> settles res = true ->
  build_tree (S limit) self c = res.
Proof.
  revert c res. induction limit as [|limit IH]; intros c res.
  - simpl. by intros <-.
  - intros Hb Hs. change (schema_loop (build_tree (S limit) self) self (get_schema c) [] = res).
    eapply schema_loop_mono; [exact IH|apply build_tree_list|exact Hb|exact Hs].
Qed.

Lemma build_tree_mono limit limit' self c res :
  limit <= limit' ->
  build_tree limit self c = res -> settles res = true ->
  build_tree limit' self c = res.
Proof.
  induction 1 as [|m Hle IH]; [done|]. intros Hb Hs. apply build_tree_step_mono; auto.
Qed.


Lemma build_tree_shape limit self c t :
  build_tree limit self c = Return t ->
  exists children, t = RequirementTreeList children /\
    Forall2 (fun q node => node_for q node = true) (get_schema c) children.
Proof.
  destruct limit; simpl; [done|]. intros Hb.
  apply schema_loop_shape in Hb; [done|apply build_tree_list].
Qed.

Lemma build_tree_sound limit self c t :
  build_tree limit self c = Return t -> candidates_sound self t = true.
Proof.
  revert c t. induction limit as [|limit IH]; intros c t; simpl; [done|].
  apply schema_loop_sound; [apply build_tree_list|exact IH|done].
Qed.

Lemma build_tree_well_formed limit self c t :
  build_tree limit self c = Return t -> well_formed t = true.
Proof.
  revert c t. induction limit as [|limit IH]; intros c t; simpl; [done|].
  apply schema_loop_well_formed; [apply build_tree_list|exact IH|done].
Qed.

Lemma build_tree_cycle limit self p r t :
  p ∈ providers_cache self ->
  r ∈ provider_schema p -> constraint_interface r = true -> satisfies p r = true ->
  build_tree limit self (as_configurable p) ≠ Return t.
Proof.
  intros Hp Hr Hc Hsat. revert t. induction limit as [|limit IH]; intros t Hb; [done|].
  pose proof Hb as Hloop. simpl in Hloop.
  eapply schema_loop_scanned in Hloop as [res Hscan]; [|apply build_tree_list|exact Hr|exact Hc].
  pose proof (scan_providers_settled _ _ _ _ _ _ Hscan p Hp Hsat) as Hset.
  destruct (build_tree limit self (as_configurable p)) as [t'|e] eqn:Hprev.
  - by eapply IH.
  - apply build_tree_step_mono in Hprev; [congruence|done].
Qed.

(** X1: for a schema of plain requirements only, [build_tree] returns the
    list of their leaves in schema order, at any positive depth and
    whatever the registry holds. *)
Theorem build_tree_plain_schema limit self c :
  Forall unconstrained (get_schema c) ->
  build_tree (S limit) self c =
    Return (RequirementTreeList (map RequirementTreeReq (get_schema c))).
Proof. intros Hplain. simpl. by rewrite schema_loop_leaves_end. Qed.

(** X2: a tree [build_tree] returns is a list with one child per schema
    entry, in schema order: the leaf of a plain requirement, a choice
    with at least one candidate for a constrained one. *)
Theorem build_tree_one_node_per_requirement limit self c t :
  build_tree limit self c = Return t ->
  exists children, t = RequirementTreeList children /\
    Forall2 (fun q node => node_for q node = true) (get_schema c) children.
Proof. apply build_tree_shape. Qed.

(** X4: in a tree [build_tree] returns, at every depth of the tree, each
    candidate of a choice is a provider of the registry's list that
    satisfies the choice's requirement. *)
Theorem build_tree_candidates_registered limit self c t :
  build_tree limit self c = Return t -> candidates_sound self t = true.
Proof. apply build_tree_sound. Qed.

(** X5: the only exceptions [build_tree] lets out are [RecursionError]
    and a [DependencyError] that names a requirement of the
    configurable's own schema; the type checks of the node constructors
    never fail inside it. *)
Theorem build_tree_raises_only_expected limit self c e :
  build_tree limit self c = Raise e -> expected_raise (get_schema c) e.
Proof. apply build_tree_raises. Qed.

(** X6: a build that ends in a tree or in a [DependencyError] under one
    recursion limit ends the same way under every larger one. *)
Theorem build_tree_stable_under_larger_limit limit limit' self c res :
  limit <= limit' ->
  build_tree limit self c = res -> settles res = true ->
  build_tree limit' self c = res.
Proof. apply build_tree_mono. Qed.

(** X7: there is no cycle detection: a registered provider whose schema
    has a constrained requirement that the provider itself satisfies is
    never built, at any recursion limit. *)
Theorem build_tree_self_requiring_never_builds limit self p r :
  p ∈ providers_cache self ->
  r ∈ provider_schema p -> constraint_interface r = true -> satisfies p r = true ->
  builds (build_tree limit self (as_configurable p)) = false.
Proof.
  intros Hp Hr Hc Hsat.
  destruct (build_tree limit self (as_configurable p)) as [t|e] eqn:Hb; [|done].
  by eapply build_tree_cycle in Hb.
Qed.

(** X8: with the vacuous match on undeclared keys this reaches every
    registered provider that has a constrained requirement on keys it
    declares none of: it satisfies its own requirement and is never
    built. *)
Theorem build_tree_undeclared_key_never_builds limit self p r :
  p ∈ providers_cache self ->
  r ∈ provider_schema p -> constraint_interface r = true ->
  dom (constraints r) ∩ dom (provides p) = ∅ ->
  builds (build_tree limit self (as_configurable p)) = false.
Proof.
  intros Hp Hr Hc Hdisjoint.
  destruct (build_tree limit self (as_configurable p)) as [t|e] eqn:Hb; [|done].
  eapply build_tree_cycle in Hb; [done..|].
  apply satisfies_iff. intros k pv cv Hpv Hcv. exfalso.
  assert (k ∈ dom (constraints r) ∩ dom (provides p)) as Hin
    by (apply elem_of_intersection; split; by apply elem_of_dom).
  rewrite Hdisjoint in Hin. by apply not_elem_of_empty in Hin.
Qed.

(** ** The registry and the matching *)

Lemma build_caches_same_elements l l' i c i' c' :
  (forall p, p ∈ l <-> p ∈ l') ->
  _build_caches l = (i, c) -> _build_caches l' = (i', c') ->
  i = i' /\ c = c'.
Proof.
  intros Hsame (Hc & Hk & Ht)%build_caches_spec (Hc' & Hk' & Ht')%build_caches_spec.
  split.
  - apply map_eq. intros k.
    assert (Hsome : is_Some (i !! k) <-> is_Some (i' !! k)).
    { rewrite Hk, Hk'. split; intros (p & ? & ?); exists p; split; try done; by apply Hsame. }
    assert (Htok : index_tokens i k = index_tokens i' k).
    { apply set_eq. intros t. rewrite Ht, Ht'.
      split; intros (p & v & ? & ? & ?); exists p, v; split_and!; try done; by apply Hsame. }
    unfold index_tokens in Htok.
    destruct (i !! k) as [s|] eqn:H1, (i' !! k) as [s'|] eqn:H2; simpl in Htok.
    + by rewrite Htok.
    + destruct Hsome as [Hs _]. by destruct Hs.
    + destruct Hsome as [_ Hs]. by destruct Hs.
    + done.
  - apply set_eq. intros p. rewrite Hc, Hc'. by rewrite Hsame.
Qed.

Lemma registry_same_elements l l' :
  (forall p, p ∈ l <-> p ∈ l') ->
  self_provides (DependencyResolver__init l) = self_provides (DependencyResolver__init l') /\
  providers_cache (DependencyResolver__init l) ≡ₚ
    providers_cache (DependencyResolver__init l') /\
  NoDup (providers_cache (DependencyResolver__init l)).
Proof.
  intros Hsame. split; [|split].
  - unfold DependencyResolver__init.
    destruct (_build_caches l) as [i c] eqn:H1, (_build_caches l') as [i' c'] eqn:H2.
    simpl. by destruct (build_caches_same_elements _ _ _ _ _ _ Hsame H1 H2).
  - apply NoDup_Permutation; [apply providers_cache_NoDup..|].
    intros p. rewrite !elem_of_providers_cache. by rewrite Hsame.
  - apply providers_cache_NoDup.
Qed.

Lemma common_provision_empty_list pv cv :
  as_list pv = [] \/ as_list cv = [] -> common_provision pv cv = ∅.
Proof.
  unfold common_provision. intros [->| ->]; set_solver.
Qed.

Lemma satisfies_empty_list p r k pv cv :
  provides p !! k = Some pv -> constraints r !! k = Some cv ->
  as_list pv = [] \/ as_list cv = [] ->
  satisfies p r = false.
Proof.
  intros Hp Hc Hnil. apply not_true_is_false. rewrite satisfies_iff. intros H.
  apply (H k pv cv Hp Hc). by apply common_provision_empty_list.
Qed.

Lemma satisfies_fewer_constraints p r r' :
  constraints r ⊆ constraints r' ->
  satisfies p r' = true -> satisfies p r = true.
Proof.
  rewrite !satisfies_iff. intros Hsub H k pv cv Hp Hc.
  apply (H k pv cv Hp). by eapply lookup_weaken.
Qed.


Lemma same_elements_spec l l' :
  same_elements l l' = true -> forall p, p ∈ l <-> p ∈ l'.
Proof.
  unfold same_elements. rewrite andb_true_iff, !forallb_forall.
  intros [H1 H2] p. split; intros Hin%list_elem_of_In.
  - eapply bool_decide_eq_true_1, H1, Hin.
  - eapply bool_decide_eq_true_1, H2, Hin.
Qed.

(** X9: the registry does not depend on how the providers are
    enumerated: two enumerations of the same providers, in any order and
    with any repetitions, give the same capability index and provider
    lists that are permutations of each other; no provider is listed
    twice. *)
Theorem registry_independent_of_enumeration l l' :
  same_elements l l' = true ->
  self_provides (DependencyResolver__init l) = self_provides (DependencyResolver__init l') /\
  providers_cache (DependencyResolver__init l) ≡ₚ
    providers_cache (DependencyResolver__init l') /\
  NoDup (providers_cache (DependencyResolver__init l)).
Proof. intros Hsame. apply registry_same_elements. by apply same_elements_spec. Qed.

(** X10: an empty list never matches: when a key is both declared and
    constrained and either value is the empty list, [satisfies] is
    false. *)
Theorem satisfies_empty_list_never_matches p r k pv cv :
  provides p !! k = Some pv -> constraints r !! k = Some cv ->
  as_list pv = [] \/ as_list cv = [] ->
  satisfies p r = false.
Proof. apply satisfies_empty_list. Qed.

(** X11: constraints only narrow: a provider that satisfies a
    requirement with further constraints added satisfies the
    requirement itself. *)
Theorem satisfies_with_fewer_constraints p r more :
  satisfies p (with_constraints r (constraints r ∪ more)) = true ->
  satisfies p r = true.
Proof.
  apply satisfies_fewer_constraints. simpl. apply map_union_subseteq_l.
Qed.

(** ** Validation *)

Section runtime_more.
Context {Ctx Value : Type}.
Variable CONFIG_SEPARATOR : string.
Variable config_read : Ctx -> string -> outcome Value.
Variable requirement_validate : Requirement -> Value -> Ctx -> option exn.
Variable provider_fulfill : Provider -> Ctx -> Requirement -> string -> Ctx * option exn.
Variable context_Context : Ctx -> option bool.

Local Abbreviation validate :=
  (validate_dependencies CONFIG_SEPARATOR config_read requirement_validate provider_fulfill).
Local Abbreviation children_loop :=
  (validate_children CONFIG_SEPARATOR config_read requirement_validate provider_fulfill
     validate).
Local Abbreviation check := (value_check config_read requirement_validate).
Local Abbreviation fulfill := (call_fulfill provider_fulfill).
Local Abbreviation check_fails := (check_fails config_read requirement_validate).
Local Abbreviation candidates_fail :=
  (candidates_fail CONFIG_SEPARATOR config_read requirement_validate provider_fulfill).
Local Abbreviation passes := (node_passes CONFIG_SEPARATOR config_read requirement_validate).
Local Abbreviation visitor_init :=
  (ValidateDependenciesVisitor__init config_read requirement_validate context_Context).

Lemma value_check_effect requirement node_path st :
  exists st',
    check requirement node_path st =
      (st', Return (negb (check_fails (context st) requirement node_path)
                    || optional requirement)) /\
    context st' = context st /\
    filter is_fulfill (trace st') = filter is_fulfill (trace st).
Proof.
  unfold value_check, try_except, read_config, call_validate, bind, log, check_fails.
  simpl. destruct (config_read (context st) node_path) as [v|e]; simpl.
  - destruct (requirement_validate requirement v (context st)); simpl.
    + destruct (optional requirement); simpl; eexists; split_and!; try done;
        simpl; by rewrite !filter_app, !app_nil_r.
    + eexists; split_and!; try done. simpl. by rewrite !filter_app, !app_nil_r.
  - destruct (optional requirement); simpl; eexists; split_and!; try done;
      simpl; by rewrite !filter_app, !app_nil_r.
Qed.

Lemma validate_selection_free children path st :
  forallb selection_free children = true ->
  exists st',
    validate (RequirementTreeList children) (Some path) st =
      (st', Return (forallb (passes (context st) path) children)) /\
    context st' = context st /\
    filter is_fulfill (trace st') = filter is_fulfill (trace st).
Proof.
  rewrite validate_list. revert st.
  induction children as [|node children IH]; intros st Hfree; simpl.
  - eexists. split_and!; done.
  - simpl in Hfree. apply andb_true_iff in Hfree as [Hnode Hfree].
    assert (Hstep : exists r, requirement_of node = Some r /\
              validate_node CONFIG_SEPARATOR config_read requirement_validate
                provider_fulfill validate path node st =
              check r (path +:+ CONFIG_SEPARATOR +:+ name r) st).
    { destruct node as [r|r c|l]; simpl in Hnode; [| |done]; exists r; split; try done.
      unfold validate_node. simpl. by rewrite Hnode. }
    destruct Hstep as (r & Hr & Hstep). unfold bind at 1. rewrite Hstep.
    destruct (value_check_effect r (path +:+ CONFIG_SEPARATOR +:+ name r) st)
      as (st1 & -> & Hctx & Htr).
    unfold node_passes at 1. rewrite Hr.
    destruct (negb _ || optional r); simpl.
    + destruct (IH st1 Hfree) as (st' & -> & Hctx' & Htr').
      exists st'. rewrite Hctx. split_and!; [done|congruence..].
    + exists st1. done.
Qed.

Lemma commit_is_kept path before requirement pre p subtree post after
    st st0 st1 st2 ctx' :
  let node_path := path +:+ CONFIG_SEPARATOR +:+ name requirement in
  optional requirement = false ->
  children_loop path before st = (st0, Return true) ->
  candidates_fail node_path pre st0 = Some st1 ->
  validate subtree (Some node_path) st1 = (st2, Return true) ->
  provider_fulfill p (context st2) requirement node_path = (ctx', None) ->
  check_fails ctx' requirement node_path = true ->
  exists st',
    validate (RequirementTreeList
                (before ++ RequirementTreeChoice requirement (pre ++ (p, subtree) :: post)
                        :: after)) (Some path) st = (st', Return false) /\
    context st' = ctx' /\
    CallFulfill p requirement node_path ∈ trace st'.
Proof.
  intros node_path Hopt Hbefore Hpre Hsub Hful Hfail.
  rewrite (commit_first_valid _ _ _ _ _ _ _ _ _ _ _ _ _ _ _ _ Hopt Hbefore Hpre Hsub).
  fold node_path. unfold bind at 1. unfold call_fulfill, bind at 1, log. simpl.
  rewrite Hful. simpl.
  set (st3 := mkState ctx' (trace st2 ++ [CallFulfill p requirement node_path])).
  destruct (value_check_effect requirement node_path st3) as (st4 & Hc & Hctx & Htr).
  simpl in Hc. rewrite Hfail, Hopt in Hc. simpl in Hc. unfold bind. rewrite Hc.
  exists st4. split; [done|]. split; [done|].
  assert (Hin : CallFulfill p requirement node_path ∈ filter is_fulfill (trace st4)).
  { rewrite Htr. simpl. rewrite filter_app. apply elem_of_app. right.
    apply list_elem_of_filter. split; [done|]. by left. }
  by apply list_elem_of_filter in Hin as [_ ?].
Qed.

Lemma visit_leaf node_path r st :
  ValidateDependenciesVisitor_visit config_read requirement_validate node_path
    (RequirementTreeReq r) st = check r node_path st.
Proof.
  unfold ValidateDependenciesVisitor_visit, value_check, try_except, read_config, bind, log.
  simpl. destruct (config_read (context st) node_path); simpl; [|done].
  unfold call_validate, bind, log. simpl.
  destruct (requirement_validate r a (context st)); done.
Qed.

(** X14: on a single leaf the two validators agree wherever the visitor
    can be constructed at all, that is on a context object that carries
    a [Context] attribute of which it is an instance: the direct
    validator on the one-leaf list, and the visitor constructed with the
    leaf's full path and then applied to the leaf, return the same
    boolean and leave the context as it was. *)
Theorem validators_agree_on_leaf path r st :
  context_Context (context st) = Some true ->
  exists st1 st2 b,
    validate (RequirementTreeList [RequirementTreeReq r]) (Some path) st = (st1, Return b) /\
    bind (visitor_init (Some (path +:+ CONFIG_SEPARATOR +:+ name r)))
         (fun visitor => accept (RequirementTreeReq r) visitor) st
      = (st2, Return b) /\
    context st1 = context st /\ context st2 = context st.
Proof.
  intros Hattr.
  set (node_path := path +:+ CONFIG_SEPARATOR +:+ name r).
  destruct (value_check_effect r node_path st) as (st1 & Hc1 & Hctx1 & _).
  set (stv := mkState (context st) (trace st ++ [Visit (RequirementTreeReq r)])).
  destruct (value_check_effect r node_path stv) as (st2 & Hc2 & Hctx2 & _).
  exists st1, st2, (negb (check_fails (context st) r node_path) || optional r).
  split_and!; [| |done|done].
  - simpl. unfold validate_node, bind. simpl. fold node_path. rewrite Hc1.
    by destruct (negb _ || optional r).
  - unfold bind at 1, ValidateDependenciesVisitor__init. rewrite Hattr. simpl.
    unfold accept, accept_body, call_visit, bind, log. simpl.
    fold stv. rewrite visit_leaf, Hc2. done.
Qed.

(** X3: a tree that [build_tree] returned can always be validated: with
    a [fulfill] that does not raise, [validate_dependencies] returns a
    boolean on it, from any path and state, whatever the store and the
    requirements' validators raise. *)
Theorem build_tree_then_validate_returns limit self c tree path st :
  build_tree limit self c = Return tree ->
  (forall p ctx r np, (provider_fulfill p ctx r np).2 = None) ->
  exists st' b, validate tree path st = (st', Return b).
Proof.
  intros Hb Hquiet. apply validate_node_total; [done|]. by eapply build_tree_well_formed.
Qed.

(** X12: when no child of a list needs branch selection (leaves and
    optional choices only), validation returns the conjunction of the
    children's value checks, each against the unchanged context, and
    calls no [fulfill]. *)
Theorem validate_without_selection children path st :
  forallb selection_free children = true ->
  exists st',
    validate (RequirementTreeList children) (Some path) st =
      (st', Return (forallb (passes (context st) path) children)) /\
    context st' = context st /\
    filter is_fulfill (trace st') = filter is_fulfill (trace st).
Proof. apply validate_selection_free. Qed.

(** X13: a commit is not undone: when the first validating candidate of
    a non-optional choice has been fulfilled and the node's own value
    check then fails, validation returns [False] and the context is the
    one [fulfill] left. *)
Theorem validate_keeps_commit_on_failure path before requirement pre p subtree post after
    st st0 st1 st2 ctx' :
  let node_path := path +:+ CONFIG_SEPARATOR +:+ name requirement in
  optional requirement = false ->
  children_loop path before st = (st0, Return true) ->
  candidates_fail node_path pre st0 = Some st1 ->
  validate subtree (Some node_path) st1 = (st2, Return true) ->
  provider_fulfill p (context st2) requirement node_path = (ctx', None) ->
  check_fails ctx' requirement node_path = true ->
  exists st',
    validate (RequirementTreeList
                (before ++ RequirementTreeChoice requirement (pre ++ (p, subtree) :: post)
                        :: after)) (Some path) st = (st', Return false) /\
    context st' = ctx' /\
    CallFulfill p requirement node_path ∈ trace st'.
Proof. apply commit_is_kept. Qed.
End runtime_more.

(** ** The further facts on the samples *)

(** The build of [LinuxLayer], whose schema is one plain requirement. *)
Lemma build_tree_plain_schema_witness :
  build_tree 1 Sample.registry (as_configurable Sample.LinuxLayer)
  = Return Sample.linux_subtree.
Proof.
  apply (build_tree_plain_schema 0 Sample.registry (as_configurable Sample.LinuxLayer)).
  repeat constructor.
Defined.

(** The tree of [X]: a leaf for [verbose], a choice for [memory]. *)
Lemma build_tree_one_node_per_requirement_witness :
  exists children, Sample.X_tree = RequirementTreeList children /\
    Forall2 (fun q node => node_for q node = true) (get_schema Sample.X) children.
Proof.
  apply (build_tree_one_node_per_requirement 3 Sample.registry Sample.X).
  vm_compute; reflexivity.
Defined.

Lemma build_tree_then_validate_returns_witness :
  exists st' b,
    validate_dependencies "." Sample.store_read Sample.nonblank Sample.record_choice
      Sample.X_tree None Sample.start = (st', Return b).
Proof.
  apply (build_tree_then_validate_returns "." Sample.store_read Sample.nonblank
           Sample.record_choice 3 Sample.registry Sample.X).
  - vm_compute; reflexivity.
  - intros p ctx r np. reflexivity.
Defined.

Lemma build_tree_candidates_registered_witness :
  candidates_sound Sample.registry Sample.X_tree = true.
Proof.
  apply (build_tree_candidates_registered 3 Sample.registry Sample.X).
  vm_compute; reflexivity.
Defined.

(** [BrokenLayer] fails on its own requirement. *)
Lemma build_tree_raises_only_expected_witness :
  expected_raise (provider_schema Sample.BrokenLayer)
    (DependencyError (Sample.needs_os "base" false "solaris")).
Proof.
  apply (build_tree_raises_only_expected 3 Sample.registry
           (as_configurable Sample.BrokenLayer)).
  vm_compute; reflexivity.
Defined.

Lemma build_tree_stable_under_larger_limit_witness :
  build_tree 7 Sample.registry Sample.X = Return Sample.X_tree.
Proof.
  apply (build_tree_stable_under_larger_limit 3 7 Sample.registry Sample.X).
  - lia.
  - vm_compute; reflexivity.
  - reflexivity.
Defined.

(** [LoopLayer] offers bsd and requires bsd. *)
Lemma build_tree_self_requiring_never_builds_witness :
  builds (build_tree 6 Cases.loop_registry (as_configurable Cases.LoopLayer)) = false.
Proof.
  apply (build_tree_self_requiring_never_builds 6 Cases.loop_registry Cases.LoopLayer
           (Sample.needs_os "below" false "bsd")).
  - vm_compute. left.
  - left.
  - reflexivity.
  - vm_compute; reflexivity.
Defined.

(** [FsLayer] declares os only and has a requirement on fs. *)
Lemma build_tree_undeclared_key_never_builds_witness :
  builds (build_tree 6 Cases.fs_registry (as_configurable Cases.FsLayer)) = false.
Proof.
  apply (build_tree_undeclared_key_never_builds 6 Cases.fs_registry Cases.FsLayer
           Cases.disk).
  - vm_compute. left.
  - left.
  - reflexivity.
  - vm_compute; reflexivity.
Defined.

Lemma registry_independent_of_enumeration_witness :
  self_provides (DependencyResolver__init [Sample.LinuxLayer; Sample.WindowsLayer]) =
  self_provides (DependencyResolver__init
                   [Sample.WindowsLayer; Sample.LinuxLayer; Sample.WindowsLayer]) /\
  providers_cache (DependencyResolver__init [Sample.LinuxLayer; Sample.WindowsLayer]) ≡ₚ
  providers_cache (DependencyResolver__init
                     [Sample.WindowsLayer; Sample.LinuxLayer; Sample.WindowsLayer]) /\
  NoDup (providers_cache (DependencyResolver__init [Sample.LinuxLayer; Sample.WindowsLayer])).
Proof.
  apply (registry_independent_of_enumeration
           [Sample.LinuxLayer; Sample.WindowsLayer]
           [Sample.WindowsLayer; Sample.LinuxLayer; Sample.WindowsLayer]).
  vm_compute; reflexivity.
Defined.

Lemma satisfies_empty_list_never_matches_witness :
  satisfies Cases.EmptyLayer Sample.memory = false.
Proof.
  apply (satisfies_empty_list_never_matches Cases.EmptyLayer Sample.memory
           "os" (Multi []) (Single "linux")).
  - vm_compute; reflexivity.
  - vm_compute; reflexivity.
  - left. reflexivity.
Defined.

Lemma satisfies_with_fewer_constraints_witness :
  satisfies Sample.LinuxLayer Sample.memory = true.
Proof.
  apply (satisfies_with_fewer_constraints Sample.LinuxLayer Sample.memory
           {[ "os" := Single "windows"; "arch" := Single "x64" ]}).
  vm_compute; reflexivity.
Defined.

(** An optional leaf and an optional choice on an empty store. *)
Lemma validate_without_selection_witness :
  exists st',
    validate_dependencies "." Sample.store_read Sample.nonblank Sample.record_choice
      (RequirementTreeList
         [RequirementTreeReq (Sample.plain "verbose" true);
          RequirementTreeChoice Cases.optional_memory
            [(Sample.GenericLayer, RequirementTreeList [])]])
      (Some "") Sample.start =
      (st', Return (forallb (node_passes "." Sample.store_read Sample.nonblank
                               (context Sample.start) "")
                      [RequirementTreeReq (Sample.plain "verbose" true);
                       RequirementTreeChoice Cases.optional_memory
                         [(Sample.GenericLayer, RequirementTreeList [])]])) /\
    context st' = context Sample.start /\
    filter is_fulfill (trace st') = filter is_fulfill (trace Sample.start).
Proof.
  apply (validate_without_selection "." Sample.store_read Sample.nonblank
           Sample.record_choice).
  reflexivity.
Defined.

(** [GenericLayer] validates and is fulfilled with an empty string,
    which the requirement then rejects. *)
Lemma validate_keeps_commit_on_failure_witness :
  exists st',
    validate_dependencies "." Sample.store_read Sample.nonblank Cases.blank_choice
      (RequirementTreeList
         [RequirementTreeChoice Sample.memory
            [(Sample.GenericLayer, RequirementTreeList [])]])
      (Some "") Sample.start = (st', Return false) /\
    context st' = {[ ".memory" := "" ]} /\
    CallFulfill Sample.GenericLayer Sample.memory ".memory" ∈ trace st'.
Proof.
  apply (validate_keeps_commit_on_failure "." Sample.store_read Sample.nonblank
           Cases.blank_choice "" [] Sample.memory [] Sample.GenericLayer
           (RequirementTreeList []) [] [] Sample.start Sample.start Sample.start
           Sample.start).
  - reflexivity.
  - reflexivity.
  - reflexivity.
  - reflexivity.
  - vm_compute; reflexivity.
  - vm_compute; reflexivity.
Defined.

(** A store with a valid value under [.a], as a context that carries its
    own class: both validators return [True]. *)
Lemma validators_agree_on_leaf_witness :
  exists st1 st2 b,
    validate_dependencies "." Sample.store_read Sample.nonblank Sample.record_choice
      (RequirementTreeList [RequirementTreeReq (Sample.plain "a" false)]) (Some "")
      (mkState ({[ ".a" := "1" ]} : gmap string string) []) = (st1, Return b) /\
    bind (ValidateDependenciesVisitor__init Sample.store_read Sample.nonblank
            Cases.own_Context (Some ".a"))
         (fun visitor => accept (RequirementTreeReq (Sample.plain "a" false)) visitor)
         (mkState ({[ ".a" := "1" ]} : gmap string string) []) = (st2, Return b) /\
    context st1 = {[ ".a" := "1" ]} /\ context st2 = {[ ".a" := "1" ]}.
Proof.
  destruct (validators_agree_on_leaf "." Sample.store_read Sample.nonblank
              Sample.record_choice Cases.own_Context "" (Sample.plain "a" false)
              (mkState ({[ ".a" := "1" ]} : gmap string string) []))
    as (st1 & st2 & b & Hdirect & Hvisitor & Hctx1 & Hctx2).
  - reflexivity.
  - exists st1, st2, b. split; [exact Hdirect|]. split; [exact Hvisitor|].
    split; [exact Hctx1|exact Hctx2].
Defined.
